(** * twscrape: account leasing pool and proxy registry

    A shallow embedding of [twscrape/accounts_pool.py], [twscrape/proxies.py]
    and the parts of the PostgreSQL statements they issue that decide the
    behaviour of the pool: the [accounts] table is a list of rows (the
    table at the head migration), the JSONB columns [locks] and [stats] are
    finite maps from queue names, timestamps are integers (seconds), and
    the statement clock [now()] is an explicit argument. *)

From Stdlib Require Import ZArith Bool Ascii String.
From stdpp Require Import base gmap strings list option.

Local Open Scope Z_scope.
Local Set Warnings "-register-all".

(* ------------------------------------------------------------------ *)
(** ** Strings: CITEXT comparison and ordering *)

(** ASCII lower-casing, as applied by CITEXT before comparing. *)
Definition ascii_lower (c : ascii) : ascii :=
  let n := nat_of_ascii c in
  if (65 <=? n)%nat && (n <=? 90)%nat then ascii_of_nat (n + 32) else c.

Fixpoint lower (s : string) : string :=
  match s with
  | EmptyString => EmptyString
  | String c s' => String (ascii_lower c) (lower s')
  end.

(** Equality of two CITEXT values: [username = :username]. *)
Definition ci_eq (a b : string) : bool := String.eqb (lower a) (lower b).

(** Byte-wise lexicographic order (the "C" collation). *)
Fixpoint str_leb (a b : string) : bool :=
  match a, b with
  | EmptyString, _ => true
  | String _ _, EmptyString => false
  | String c a', String d b' =>
      let n := nat_of_ascii c in
      let m := nat_of_ascii d in
      if (n <? m)%nat then true
      else if (n =? m)%nat then str_leb a' b'
      else false
  end.

(** Python truthiness of an optional string ([x or default], [if x:]). *)
Definition truthy (o : option string) : option string :=
  match o with
  | Some s => if String.eqb s "" then None else Some s
  | None => None
  end.

(* ------------------------------------------------------------------ *)
(** ** JSONB paths built by string interpolation

    [lock_until], [unlock] and [_get_and_lock] write a key of a JSONB
    column with [jsonb_set(col, '{{{queue}}}', v, true)]: the Python
    f-string renders the path as the text[] literal ['{' ++ queue ++ '}'],
    whose elements Postgres separates at commas; the literal ['{}'] is the
    empty array.  Quoting, backslash escapes, whitespace trimming and
    [NULL] elements of array literals are not modelled: queue names are
    taken free of braces, double and single quotes, backslashes and white
    space. *)

Fixpoint split_commas (s : string) : list string :=
  match s with
  | EmptyString => [EmptyString]
  | String c s' =>
      let rest := split_commas s' in
      if Ascii.eqb c "," then EmptyString :: rest
      else match rest with
           | h :: t => String c h :: t
           | [] => [String c EmptyString]
           end
  end.

Definition queue_path (queue : string) : list string :=
  if String.eqb queue "" then [] else split_commas queue.

(** [jsonb_set(target, path, v, true)] on an object whose values are
    scalars (timestamps in [locks], integers in [stats]).  A one-element
    path sets (or creates) that key.  The empty path returns the target.
    A longer path needs its first step to be an existing container; in a
    flat object it never is, and the target is returned unchanged. *)
Definition jsonb_set {V} (target : gmap string V) (path : list string) (v : V)
    : gmap string V :=
  match path with
  | [k] => <[k := v]> target
  | _ => target
  end.

(** A queue name written as a plain identifier: letters, digits and [_],
    not empty and not the array keyword [NULL]. *)
Definition ident_char (c : ascii) : bool :=
  let n := nat_of_ascii c in
  ((48 <=? n)%nat && (n <=? 57)%nat) || ((65 <=? n)%nat && (n <=? 90)%nat)
  || ((97 <=? n)%nat && (n <=? 122)%nat) || (n =? 95)%nat.

Fixpoint all_ident (s : string) : bool :=
  match s with
  | EmptyString => true
  | String c s' => ident_char c && all_ident s'
  end.

Definition plain_queue (queue : string) : bool :=
  negb (String.eqb queue "") && all_ident queue
  && negb (String.eqb (lower queue) "null").

(* ------------------------------------------------------------------ *)
(** ** The [accounts] table *)

Record row := mk_row {
  username : string;
  password : string;
  email : string;
  email_password : string;
  user_agent : string;
  active : bool;
  locks : gmap string Z;
  headers : gmap string string;
  cookies : gmap string string;
  stats : gmap string Z;
  error_msg : option string;
  last_used : option Z;
  tx : option string;
  mfa_code : option string;
  proxy_id : option Z
}.

Definition set_locks (l : gmap string Z) (r : row) : row :=
  {| username := username r; password := password r; email := email r;
     email_password := email_password r; user_agent := user_agent r;
     active := active r; locks := l; headers := headers r;
     cookies := cookies r; stats := stats r; error_msg := error_msg r;
     last_used := last_used r; tx := tx r; mfa_code := mfa_code r;
     proxy_id := proxy_id r |}.

Definition set_stats (s : gmap string Z) (r : row) : row :=
  {| username := username r; password := password r; email := email r;
     email_password := email_password r; user_agent := user_agent r;
     active := active r; locks := locks r; headers := headers r;
     cookies := cookies r; stats := s; error_msg := error_msg r;
     last_used := last_used r; tx := tx r; mfa_code := mfa_code r;
     proxy_id := proxy_id r |}.

Definition set_last_used (t : option Z) (r : row) : row :=
  {| username := username r; password := password r; email := email r;
     email_password := email_password r; user_agent := user_agent r;
     active := active r; locks := locks r; headers := headers r;
     cookies := cookies r; stats := stats r; error_msg := error_msg r;
     last_used := t; tx := tx r; mfa_code := mfa_code r;
     proxy_id := proxy_id r |}.


(** [SELECT * FROM accounts WHERE username = :username] with [fetchone]. *)
Definition fetch_by_username (u : string) (rs : list row) : option row :=
  find (fun r => ci_eq (username r) u) rs.

(** [UPDATE accounts SET ... WHERE username = u]: every matching row. *)
Definition update_where (u : string) (f : row -> row) (rs : list row) : list row :=
  map (fun r => if ci_eq (username r) u then f r else r) rs.

(** The primary key: usernames are unique up to case. *)
Definition unique_usernames (rs : list row) : Prop :=
  NoDup (map (fun r => lower (username r)) rs).

(** The columns of [accounts] at the head migration, in
    table order ([proxy] dropped by 20250603, [proxy_id] added by
    20250604). *)
Definition accounts_columns : list string :=
  ["username"; "password"; "email"; "email_password"; "user_agent"; "active";
   "locks"; "headers"; "cookies"; "stats"; "error_msg"; "last_used"; "tx";
   "mfa_code"; "proxy_id"].

(** Results of operations that may raise. *)
Inductive res (A : Type) : Type :=
| Ok (a : A)
| Err (msg : string).
Arguments Ok {A} a.
Arguments Err {A} msg.

(* ------------------------------------------------------------------ *)
(** ** [AccountsPool]: release and unlock *)

(** [lock_until(username, queue, unlock_at, req_count)]: one UPDATE that
    sets the lock, adds [req_count] to the stats counter (a missing key
    read as [COALESCE(NULL, 0)]) and stamps [last_used = now()]. *)
Definition lock_until_row (now : Z) (queue : string) (unlock_at req_count : Z)
    (r : row) : row :=
  set_last_used (Some now)
    (set_stats (jsonb_set (stats r) (queue_path queue)
                  (default 0 (stats r !! queue) + req_count))
       (set_locks (jsonb_set (locks r) (queue_path queue) unlock_at) r)).

Definition lock_until (now : Z) (u queue : string) (unlock_at req_count : Z)
    (rs : list row) : list row :=
  update_where u (lock_until_row now queue unlock_at req_count) rs.

(** [unlock(username, queue, req_count)]: a first UPDATE removes the key
    ([locks - :queue_name], a bound parameter) and stamps [last_used]; the
    stats UPDATE runs only [if req_count > 0]. *)
Definition unlock_row (now : Z) (queue : string) (r : row) : row :=
  set_last_used (Some now) (set_locks (delete queue (locks r)) r).

Definition unlock_stats_row (queue : string) (req_count : Z) (r : row) : row :=
  set_stats (jsonb_set (stats r) (queue_path queue)
               (default 0 (stats r !! queue) + req_count)) r.

Definition unlock (now : Z) (u queue : string) (req_count : Z)
    (rs : list row) : list row :=
  let rs1 := update_where u (unlock_row now queue) rs in
  if 0 <? req_count then update_where u (unlock_stats_row queue req_count) rs1
  else rs1.

(* ------------------------------------------------------------------ *)
(** ** [AccountsPool]: leasing *)

(** [interval '15 minutes'] *)
Definition LEASE_TTL : Z := 15 * 60.

(** The WHERE clause of the subquery of [get_for_queue]:
    [active = true AND (locks->>'queue' IS NULL
                        OR (locks->>'queue')::timestamptz < now())]. *)
Definition eligible (now : Z) (queue : string) (r : row) : bool :=
  active r && match locks r !! queue with
              | None => true
              | Some t => t <? now
              end.

(** [ORDER BY <_order_by> LIMIT 1]: the first row under the order [ord]
    ([ord a b] = [a] may come before [b]). *)
Fixpoint pick_first (ord : row -> row -> bool) (rs : list row) : option row :=
  match rs with
  | [] => None
  | r :: rs' =>
      match pick_first ord rs' with
      | None => Some r
      | Some b => if ord r b then Some r else Some b
      end
  end.

(** The default [_order_by = "username"], on CITEXT values. *)
Definition order_by_username (a b : row) : bool :=
  str_leb (lower (username a)) (lower (username b)).

(** The SET clause of [_get_and_lock]. *)
Definition lease_row (now : Z) (queue : string) (r : row) : row :=
  set_last_used (Some now)
    (set_locks (jsonb_set (locks r) (queue_path queue) (now + LEASE_TTL)) r).

(** The statement [get_for_queue(queue)] runs through [_get_and_lock(queue,
    subquery)]: a single [UPDATE accounts SET ... WHERE username = (SELECT
    username ... LIMIT 1) RETURNING *] fetched with [fetchone].  When the
    subquery is empty the comparison with NULL selects no row.  Returns the
    row [fetchone] gives (before [Account.from_rs]) and the new table; the
    session commits the UPDATE when [fetchone] returns. *)
Definition lock_returning (ord : row -> row -> bool) (now : Z) (queue : string)
    (rs : list row) : option row * list row :=
  match pick_first ord (List.filter (eligible now queue) rs) with
  | None => (None, rs)
  | Some c =>
      let rs' := update_where (username c) (lease_row now queue) rs in
      (fetch_by_username (username c) rs', rs')
  end.

(** The answer of [next_available_at(queue)]: ["now"] or a clock time. *)
Inductive next_at := NextNow | NextAt (t : Z).

(** The earliest lock for [queue] among active accounts. *)
Fixpoint min_lock (queue : string) (rs : list row) : option Z :=
  match rs with
  | [] => None
  | r :: rs' =>
      let m := min_lock queue rs' in
      match (if active r then locks r !! queue else None), m with
      | Some t, Some t' => Some (Z.min t t')
      | Some t, None => Some t
      | None, _ => m
      end
  end.

(* ------------------------------------------------------------------ *)
(** ** [Account.from_rs] and the lease as the caller sees it *)

(** The fields of the [Account] dataclass. *)
Definition account_fields : list string :=
  ["username"; "password"; "email"; "email_password"; "user_agent"; "active";
   "locks"; "stats"; "headers"; "cookies"; "mfa_code"; "proxy"; "error_msg";
   "last_used"; "_tx"].

(** The fields without a default value. *)
Definition account_required : list string :=
  ["username"; "password"; "email"; "email_password"; "user_agent"; "active"].

(** The keys of [doc] in [from_rs]: [dict(rs._mapping)] has the columns of
    the fetched row in table order, and [doc["_tx"] = doc.pop("tx")] moves
    [tx] to the end under the name [_tx]. *)
Definition from_rs_keys : list string :=
  List.filter (fun k => negb (String.eqb k "tx")) accounts_columns ++ ["_tx"].

(** The dataclass constructor called with the keyword arguments [doc]: a
    keyword that is not a field raises (the first one in [doc]'s order),
    then a missing field without a default raises. *)
Definition account_init (keys : list string) : res unit :=
  match find (fun k => negb (existsb (String.eqb k) account_fields)) keys with
  | Some k =>
      Err ("TypeError: Account.__init__() got an unexpected keyword argument '"
           +:+ k +:+ "'")
  | None =>
      if forallb (fun f => existsb (String.eqb f) keys) account_required then Ok tt
      else Err "TypeError: Account.__init__() missing a required argument"
  end.

(** The first error of a list of results. *)
Fixpoint first_err (l : list (res Z)) : option string :=
  match l with
  | [] => None
  | Err e :: _ => Some e
  | Ok _ :: l' => first_err l'
  end.

Section Lease.

(** [utc.from_iso] of [twscrape/utils.py] (not part of the sources), on
    the text of a stored lock (in [from_rs]) and on the value the driver
    returns for a [timestamptz] column (in [next_available_at]); either may
    raise.  When it succeeds on a stored lock it gives the stored instant. *)
Variable lock_from_iso : Z -> res Z.
Variable ts_from_iso : Z -> res Z.

(** [Account.from_rs(rs)]: every lock value goes through [utc.from_iso]
    (the first failure, in the order of [map_to_list], is raised; the
    order in which Postgres lists jsonb keys is not modelled), then the
    dataclass is built from [doc]; the account carries the row's values. *)
Definition from_rs (r : row) : res row :=
  match first_err (map (fun kv => lock_from_iso kv.2) (map_to_list (locks r))) with
  | Some e => Err e
  | None => match account_init from_rs_keys with
            | Ok _ => Ok r
            | Err e => Err e
            end
  end.

(** [get_for_queue(queue)] = [_get_and_lock(queue, subquery)]: the UPDATE
    (committed), then [Account.from_rs(rs) if rs else None]. *)
Definition get_for_queue (ord : row -> row -> bool) (now : Z) (queue : string)
    (rs : list row) : res (option row) * list row :=
  match lock_returning ord now queue rs with
  | (Some r, rs') =>
      (match from_rs r with Ok a => Ok (Some a) | Err e => Err e end, rs')
  | (None, rs') => (Ok None, rs')
  end.

(** [next_available_at(queue)]: [SELECT (locks->>'queue')::timestamptz AS
    lock_until ... WHERE active = true AND locks->>'queue' IS NOT NULL ORDER
    BY lock_until ASC LIMIT 1]; on a row, [trg = utc.from_iso(rs[0])],
    reported as ["now"] when before [now], else as the local clock time of
    [trg]. *)
Definition next_available_at (now : Z) (queue : string) (rs : list row)
    : res (option next_at) :=
  match min_lock queue rs with
  | Some t =>
      match ts_from_iso t with
      | Ok trg => Ok (Some (if trg <? now then NextNow else NextAt trg))
      | Err e => Err e
      end
  | None => Ok None
  end.

(** Outcome of [get_for_queue_or_wait], with the table it leaves. *)
Inductive wait_result :=
| Returned (acc : option row) (rs : list row)
| Raised (msg : string) (rs : list row)
| StillWaiting.

(** The polling loop.  Each element of [polls] is the clock and the table
    seen by one iteration (other clients change the table during the
    [asyncio.sleep(5)]); [StillWaiting] means the loop is still polling
    after the given iterations.  [fail_fast] is
    [self._raise_when_no_account or get_env_bool("TWS_RAISE_WHEN_NO_ACCOUNT")].
    An exception of [get_for_queue] or [next_available_at] leaves the loop. *)
Fixpoint wait_loop (ord : row -> row -> bool) (fail_fast : bool) (queue : string)
    (msg_shown : bool) (polls : list (Z * list row)) : wait_result :=
  match polls with
  | [] => StillWaiting
  | (now, rs) :: more =>
      match get_for_queue ord now queue rs with
      | (Err e, rs') => Raised e rs'
      | (Ok (Some a), rs') => Returned (Some a) rs'
      | (Ok None, rs') =>
          if fail_fast then Raised ("No account available for queue " +:+ queue) rs'
          else if msg_shown then wait_loop ord fail_fast queue true more
          else match next_available_at now queue rs' with
               | Err e => Raised e rs'
               | Ok None => Returned None rs'
               | Ok (Some _) => wait_loop ord fail_fast queue true more
               end
      end
  end.

Definition get_for_queue_or_wait (ord : row -> row -> bool) (fail_fast : bool)
    (queue : string) (polls : list (Z * list row)) : wait_result :=
  wait_loop ord fail_fast queue false polls.

End Lease.

(* ------------------------------------------------------------------ *)
(** ** [reset_locks]: the JSONB literal of its statement

    [reset_locks] runs ["UPDATE accounts SET locks = '{{}}'::jsonb"], a
    plain string, so the literal reaching Postgres is [{{}}]; [relogin]
    writes the same text inside an f-string, which renders [{{] as [{] and
    [}}] as [}].  The JSON input function below covers objects with string
    keys and object or string values (escapes are not modelled), enough to
    read both literals. *)

Inductive json :=
| JStr (s : string)
| JObj (members : list (string * json)).

Definition ws_char (c : ascii) : bool :=
  let n := nat_of_ascii c in
  (n =? 32)%nat || (n =? 9)%nat || (n =? 10)%nat || (n =? 13)%nat.

Fixpoint skip_ws (s : string) : string :=
  match s with
  | String c s' => if ws_char c then skip_ws s' else s
  | EmptyString => s
  end.

(** The body of a JSON string, up to its closing double quote (code 34). *)
Fixpoint read_string (s : string) : option (string * string) :=
  match s with
  | EmptyString => None
  | String c s' =>
      if Ascii.eqb c "034" then Some (EmptyString, s')
      else match read_string s' with
           | Some (b, rest) => Some (String c b, rest)
           | None => None
           end
  end.

Fixpoint parse_value (fuel : nat) (s : string) : option (json * string) :=
  match fuel with
  | O => None
  | S f =>
      match skip_ws s with
      | EmptyString => None
      | String c rest =>
          if Ascii.eqb c "034" then
            match read_string rest with
            | Some (b, r) => Some (JStr b, r)
            | None => None
            end
          else if Ascii.eqb c "{" then
            match skip_ws rest with
            | String d rest' =>
                if Ascii.eqb d "}" then Some (JObj [], rest')
                else parse_members f (skip_ws rest) []
            | EmptyString => None
            end
          else None
      end
  end
with parse_members (fuel : nat) (s : string) (acc : list (string * json))
    : option (json * string) :=
  match fuel with
  | O => None
  | S f =>
      match s with
      | String c rest =>
          if Ascii.eqb c "034" then
            match read_string rest with
            | Some (k, r1) =>
                match skip_ws r1 with
                | String d r2 =>
                    if Ascii.eqb d ":" then
                      match parse_value f r2 with
                      | Some (v, r3) =>
                          match skip_ws r3 with
                          | String e r4 =>
                              if Ascii.eqb e "," then
                                parse_members f (skip_ws r4) (acc ++ [(k, v)])
                              else if Ascii.eqb e "}" then
                                Some (JObj (acc ++ [(k, v)]), r4)
                              else None
                          | EmptyString => None
                          end
                      | None => None
                      end
                    else None
                | EmptyString => None
                end
            | None => None
            end
          else None
      | EmptyString => None
      end
  end.

(** [text::jsonb]: [None] is the error "invalid input syntax for type json". *)
Definition jsonb_in (text : string) : option json :=
  match parse_value (S (String.length text)) text with
  | Some (v, rest) => if String.eqb (skip_ws rest) "" then Some v else None
  | None => None
  end.

(** Python f-string rendering of the brace escapes [{{] and [}}]. *)
Fixpoint fstring_unescape (s : string) : string :=
  match s with
  | String c ((String d s') as t) =>
      if (Ascii.eqb c "{" && Ascii.eqb d "{") || (Ascii.eqb c "}" && Ascii.eqb d "}")
      then String c (fstring_unescape s')
      else String c (fstring_unescape t)
  | _ => s
  end.

(** The text between the quotes of the [reset_locks] statement. *)
Definition reset_locks_literal : string := "{{}}".

(** The same text in the f-string of [relogin], as rendered. *)
Definition relogin_locks_literal : string := fstring_unescape "{{}}".

(** [reset_locks()]: the UPDATE fails when its literal is not JSON; with an
    empty object every row's [locks] becomes empty (a non-empty object is
    never the literal here). *)
Definition reset_locks (rs : list row) : res (list row) :=
  match jsonb_in reset_locks_literal with
  | None => Err "invalid input syntax for type json"
  | Some (JObj []) => Ok (map (set_locks ∅) rs)
  | Some _ => Err "locks literal is not an empty object"
  end.

(* ------------------------------------------------------------------ *)
(** ** Python string helpers: [str.strip], [str.split], [str.splitlines]

    On ASCII text. *)

(** [str.isspace()] on one character: codes 9 to 13 and 28 to 32. *)
Definition py_space (c : ascii) : bool :=
  let n := nat_of_ascii c in
  ((9 <=? n)%nat && (n <=? 13)%nat) || ((28 <=? n)%nat && (n <=? 32)%nat).

Fixpoint lstrip (s : string) : string :=
  match s with
  | String c s' => if py_space c then lstrip s' else s
  | EmptyString => EmptyString
  end.

Fixpoint rstrip (s : string) : string :=
  match s with
  | String c s' =>
      let r := rstrip s' in
      if py_space c && String.eqb r "" then EmptyString else String c r
  | EmptyString => EmptyString
  end.

(** [s.strip()] *)
Definition strip (s : string) : string := rstrip (lstrip s).

(** [s.split(sep)] for a non-empty [sep], scanning left to right: [skip]
    counts the characters of a matched separator still to pass over, and
    the head of the result is the piece being read. *)
Fixpoint split_go (sep : string) (skip : nat) (s : string) : list string :=
  match s with
  | EmptyString => [EmptyString]
  | String c s' =>
      match skip with
      | S k => split_go sep k s'
      | O =>
          if String.prefix sep s
          then EmptyString :: split_go sep (pred (String.length sep)) s'
          else match split_go sep O s' with
               | h :: t => String c h :: t
               | [] => [String c EmptyString]
               end
      end
  end.

Definition py_split (sep s : string) : list string := split_go sep O s.

(** [sub in s] *)
Fixpoint occurs (sub s : string) : bool :=
  String.prefix sub s
  || match s with
     | String _ s' => occurs sub s'
     | EmptyString => false
     end.

(** Line boundaries of [str.splitlines()]: codes 10 to 13 and 28 to 30,
    with carriage return + line feed read as one. *)
Definition line_break (c : ascii) : bool :=
  let n := nat_of_ascii c in
  ((10 <=? n)%nat && (n <=? 13)%nat) || ((28 <=? n)%nat && (n <=? 30)%nat).

Fixpoint splitlines_go (s : string) : list string :=
  match s with
  | EmptyString => [EmptyString]
  | String c s' =>
      if Ascii.eqb c "013" then
        match s' with
        | String d s'' =>
            if Ascii.eqb d "010" then EmptyString :: splitlines_go s''
            else EmptyString :: splitlines_go s'
        | EmptyString => EmptyString :: splitlines_go s'
        end
      else if line_break c then EmptyString :: splitlines_go s'
      else match splitlines_go s' with
           | h :: t => String c h :: t
           | [] => [String c EmptyString]
           end
  end.

(** [s.splitlines()]: no piece after a final line boundary. *)
Definition splitlines (s : string) : list string :=
  let l := splitlines_go s in
  match List.rev l with
  | EmptyString :: _ => removelast l
  | _ => l
  end.

(** [[x.strip() for x in lines if x.strip()]] *)
Definition stripped_lines (lines : list string) : list string :=
  map strip (List.filter (fun x => negb (String.eqb (strip x) "")) lines).

(* ------------------------------------------------------------------ *)
(** ** The text of the lease statement *)

(** Text of a SQL statement built by [get_for_queue] and [_get_and_lock]:
    the f-strings, with [queue] and [self._order_by] interpolated as they
    are. *)
Definition get_for_queue_sql (order_by queue : string) : string :=
  "
        SELECT username FROM accounts
        WHERE active = true AND (
            locks->>'" +:+ queue +:+ "' IS NULL
            OR (locks->>'" +:+ queue +:+ "')::timestamptz < now()
        )
        ORDER BY " +:+ order_by +:+ "
        LIMIT 1
        ".

Definition get_and_lock_sql (queue condition : string) : string :=
  let cond := if occurs " " condition then "(" +:+ condition +:+ ")"
              else "'" +:+ condition +:+ "'" in
  "
        UPDATE accounts
        SET
            locks = jsonb_set(
                locks,
                '{" +:+ queue +:+ "}',
                to_jsonb((now() + interval '15 minutes')::text),
                true
            ),
            last_used = now()
        WHERE username = " +:+ cond +:+ "
        RETURNING *
        ".

(** The number of single quotes (code 39) in a text. *)
Fixpoint count_quotes (s : string) : nat :=
  match s with
  | EmptyString => O
  | String c s' => (if Ascii.eqb c "039" then 1 else 0) + count_quotes s'
  end.

(* ------------------------------------------------------------------ *)
(** ** [twscrape/proxies.py]: the [proxies] table *)

Module Proxies.

Record proxy := mk_proxy {
  id : Z;
  url : string;
  active : bool;
  fail_count : Z;
  last_failed : option Z
}.

(** [ensure(url)]: [INSERT ... ON CONFLICT (url) DO NOTHING]; the serial
    key is the next id. *)
Definition ensure (u : string) (ps : list proxy) : list proxy :=
  if existsb (fun p => String.eqb (url p) u) ps then ps
  else ps ++ [mk_proxy (1 + fold_right (fun p m => Z.max (id p) m) 0 ps) u true 0 None].

(** [get_active()]: [WHERE active = true ORDER BY random() LIMIT 1]; the
    random draw is the index [seed] into the active rows. *)
Definition get_active (seed : nat) (ps : list proxy) : option (Z * string) :=
  let act := List.filter active ps in
  match act with
  | [] => None
  | _ => match nth_error act (seed mod length act) with
         | Some p => Some (id p, url p)
         | None => None
         end
  end.

Definition get_url (pid : Z) (ps : list proxy) : option string :=
  option_map url (find (fun p => id p =? pid) ps).

Definition get_proxy_id (u : string) (ps : list proxy) : option Z :=
  option_map id (find (fun p => String.eqb (url p) u) ps).

(** [mark_failed(proxy_id)] at time [ts]. *)
Definition mark_failed (ts : Z) (pid : Z) (ps : list proxy) : list proxy :=
  map (fun p => if id p =? pid
                then mk_proxy (id p) (url p) false (fail_count p + 1) (Some ts)
                else p) ps.

(** Some proxy with this id is active. *)
Definition is_active (pid : Z) (ps : list proxy) : bool :=
  existsb (fun p => (id p =? pid) && active p) ps.

(** [load_from_file(filepath)] on the file's text: the stripped non-blank
    lines, inserted with [executemany] of the [ensure] statement; nothing
    is run when there is none. *)
Definition load_from_file (content : string) (ps : list proxy) : list proxy :=
  match stripped_lines (splitlines content) with
  | [] => ps
  | urls => fold_left (fun acc u => ensure u acc) urls ps
  end.

End Proxies.

(** The store: both tables. *)
Record db := mk_db {
  accounts : list row;
  proxies : list Proxies.proxy
}.

(* ------------------------------------------------------------------ *)
(** ** [add_account] and [save] *)

Section AddAccount.

(** [UserAgent().safari] and [twscrape.utils.parse_cookies] (not part of
    the pool). *)
Variable default_user_agent : string.
Variable parse_cookies : string -> gmap string string.

(** The [Account] built by [add_account]: inactive, empty locks and stats,
    made active when the parsed cookies hold [ct0].  The [proxy] URL goes
    to [proxies.ensure]; the row's [proxy_id] column starts NULL. *)
Definition new_account (u pw em ep : string) (ua cookies mfa : option string) : row :=
  let ck := match truthy cookies with Some c => parse_cookies c | None => ∅ end in
  {| username := u; password := pw; email := em; email_password := ep;
     user_agent := match truthy ua with Some a => a | None => default_user_agent end;
     active := bool_decide (is_Some (ck !! "ct0"));
     locks := ∅; headers := ∅; cookies := ck; stats := ∅;
     error_msg := None; last_used := None; tx := None; mfa_code := mfa;
     proxy_id := None |}.

(** [save(account)]: [INSERT ... ON CONFLICT(username) DO UPDATE SET]
    every column. *)
Definition save (r : row) (rs : list row) : list row :=
  if existsb (fun x => ci_eq (username x) (username r)) rs
  then update_where (username r) (fun _ => r) rs
  else rs ++ [r].

(** [add_account(...)]: returns early (a logged warning) when a row with
    that username exists. *)
Definition add_account (d : db) (u pw em ep : string)
    (ua proxy cookies mfa : option string) : res db :=
  match fetch_by_username u (accounts d) with
  | Some _ => Ok d
  | None =>
      let ps := match truthy proxy with
                | Some p => Proxies.ensure p (proxies d)
                | None => proxies d
                end in
      Ok {| accounts := save (new_account u pw em ep ua cookies mfa) (accounts d);
            proxies := ps |}
  end.

End AddAccount.

(* ------------------------------------------------------------------ *)
(** ** [get] and [get_account] *)

Section Lookup.

(** [Account] and [Account.from_rs], the decoding of a fetched row (it may
    raise). *)
Variable account : Type.
Variable from_rs : row -> res account.

(** [get(username)]: raises [ValueError] when no row matches. *)
Definition get (u : string) (rs : list row) : res account :=
  match fetch_by_username u rs with
  | None => Err ("Account " +:+ u +:+ " not found")
  | Some r => from_rs r
  end.

(** [get_account(username)]: [None] when no row matches. *)
Definition get_account (u : string) (rs : list row) : res (option account) :=
  match fetch_by_username u rs with
  | None => Ok None
  | Some r => match from_rs r with
              | Ok a => Ok (Some a)
              | Err e => Err e
              end
  end.

End Lookup.

(* ------------------------------------------------------------------ *)
(** ** The Queue Client *)



(* ------------------------------------------------------------------ *)
(** ** Sample rows *)

Definition sample_row (u : string) (act : bool) (l : gmap string Z) : row :=
  {| username := u; password := "pass"; email := "mail"; email_password := "mpass";
     user_agent := "ua"; active := act; locks := l; headers := ∅; cookies := ∅;
     stats := ∅; error_msg := None; last_used := None; tx := None;
     mfa_code := None; proxy_id := None |}.

Definition sample_proxy (pid : Z) (u : string) : Proxies.proxy :=
  Proxies.mk_proxy pid u true 0 None.

(* ------------------------------------------------------------------ *)
(** ** [AccountsPool.load_from_file] and [guess_delim] *)

(** [guess_delim(line)]: [lp, rp = tuple(x.strip() for x in
    line.split("username"))] raises unless there are exactly two pieces;
    the delimiter is [rp[0]] when [lp] is empty ([IndexError] when [rp]
    is empty too), else [lp[-1]]. *)
Definition guess_delim (line : string) : res string :=
  match map strip (py_split "username" line) with
  | [lp; rp] =>
      if String.eqb lp "" then
        match rp with
        | String c _ => Ok (String c EmptyString)
        | EmptyString => Err "IndexError: string index out of range"
        end
      else match String.get (pred (String.length lp)) lp with
           | Some c => Ok (String c EmptyString)
           | None => Err "IndexError: string index out of range"
           end
  | [_] => Err "ValueError: not enough values to unpack (expected 2, got 1)"
  | _ => Err "ValueError: too many values to unpack (expected 2)"
  end.

Definition required_fields : list string :=
  ["username"; "password"; "email"; "email_password"].

(** The keyword parameters of [add_account]. *)
Definition add_account_params : list string :=
  ["username"; "password"; "email"; "email_password"; "user_agent"; "proxy";
   "cookies"; "mfa_code"].

(** [{k: v for k, v in zip(tokens, data) if k != "_"}]: a later key
    overwrites an earlier one. *)
Definition line_vals (tokens data : list string) : gmap string string :=
  fold_left (fun m kv => if String.eqb kv.1 "_" then m else <[kv.1 := kv.2]> m)
    (zip tokens data) ∅.

(** The loop over the lines: [data = [x.strip() for x in
    line.split(line_delim)]]; fewer pieces than [tokens] raise, more are
    cut to [len(tokens)]. *)
Fixpoint parse_lines (delim : string) (tokens lines : list string)
    : res (list (gmap string string)) :=
  match lines with
  | [] => Ok []
  | line :: rest =>
      let data := map strip (py_split delim line) in
      if (length data <? length tokens)%nat
      then Err ("ValueError: Invalid line: " +:+ line)
      else match parse_lines delim tokens rest with
           | Ok vs => Ok (line_vals tokens (firstn (length tokens) data) :: vs)
           | Err e => Err e
           end
  end.

Section LoadFromFile.

Variable default_user_agent : string.
Variable parse_cookies : string -> gmap string string.

(** [self.add_account] called with the line's dict as keywords: a keyword that is not a parameter of
    [add_account], or a missing required one, is a [TypeError] raised
    before the body runs. *)
Definition call_add_account (d : db) (vals : gmap string string) : res db :=
  if forallb (fun k => existsb (String.eqb k) add_account_params)
       (map fst (map_to_list vals))
  then match vals !! "username", vals !! "password", vals !! "email",
             vals !! "email_password" with
       | Some u, Some pw, Some em, Some ep =>
           add_account default_user_agent parse_cookies d u pw em ep
             (vals !! "user_agent") (vals !! "proxy") (vals !! "cookies")
             (vals !! "mfa_code")
       | _, _, _, _ => Err "TypeError: missing a required argument"
       end
  else Err "TypeError: got an unexpected keyword argument".

(** The loop adding the parsed accounts one by one: the store after the
    calls made (each commits on its own), and the exception that stopped
    the loop, if any. *)
Fixpoint add_all (d : db) (vs : list (gmap string string)) : db * option string :=
  match vs with
  | [] => (d, None)
  | v :: vs' =>
      match call_add_account d v with
      | Ok d' => add_all d' vs'
      | Err e => (d, Some e)
      end
  end.

(** [load_from_file(filepath, line_format)] on the file's text [content]:
    the format is checked, every line is parsed, and only then are the
    accounts added. *)
Definition load_from_file (d : db) (content line_format : string)
    : db * option string :=
  match guess_delim line_format with
  | Err e => (d, Some e)
  | Ok delim =>
      let tokens := py_split delim line_format in
      if forallb (fun k => existsb (String.eqb k) tokens) required_fields then
        match parse_lines delim tokens
                (stripped_lines (py_split (String "010" EmptyString) content)) with
        | Ok vs => add_all d vs
        | Err e => (d, Some e)
        end
      else (d, Some ("ValueError: Invalid line format: " +:+ line_format))
  end.

End LoadFromFile.

(* ------------------------------------------------------------------ *)
(** ** [delete_accounts], [delete_inactive], [set_active], [mark_inactive] *)

(** [username IN (:username_0, ...)] on the CITEXT column. *)
Definition in_names (names : list string) (r : row) : bool :=
  existsb (ci_eq (username r)) names.

(** [delete_accounts(usernames)]: [list(set(usernames))]; no statement for
    an empty list. *)
Definition delete_accounts (names : list string) (rs : list row) : list row :=
  match remove_dups names with
  | [] => rs
  | us => List.filter (fun r => negb (in_names us r)) rs
  end.

(** [DELETE FROM accounts WHERE active = false] *)
Definition delete_inactive (rs : list row) : list row := List.filter active rs.

Definition set_active_row (b : bool) (r : row) : row :=
  {| username := username r; password := password r; email := email r;
     email_password := email_password r; user_agent := user_agent r;
     active := b; locks := locks r; headers := headers r;
     cookies := cookies r; stats := stats r; error_msg := error_msg r;
     last_used := last_used r; tx := tx r; mfa_code := mfa_code r;
     proxy_id := proxy_id r |}.

(** [UPDATE accounts SET active = :active WHERE username = :username] *)
Definition set_active (u : string) (b : bool) (rs : list row) : list row :=
  update_where u (set_active_row b) rs.

Definition mark_inactive_row (e : option string) (r : row) : row :=
  {| username := username r; password := password r; email := email r;
     email_password := email_password r; user_agent := user_agent r;
     active := false; locks := locks r; headers := headers r;
     cookies := cookies r; stats := stats r; error_msg := e;
     last_used := last_used r; tx := tx r; mfa_code := mfa_code r;
     proxy_id := proxy_id r |}.

(** [UPDATE accounts SET active = false, error_msg = :error_msg
    WHERE username = :username] *)
Definition mark_inactive (u : string) (e : option string) (rs : list row) : list row :=
  update_where u (mark_inactive_row e) rs.

(* ------------------------------------------------------------------ *)
(** ** [relogin] and [relogin_failed] *)

Section Relogin.

(** [UserAgent().safari]. *)
Variable safari_ua : string.
(** [self.login_all(usernames)] (network logins, then [save]). *)
Variable login_all : list string -> list row -> res (list row).
(** The text form of the named column of a row, [None] for SQL NULL. *)
Variable column_text : string -> row -> option string.

Definition relogin_row (ua : string) (r : row) : row :=
  {| username := username r; password := password r; email := email r;
     email_password := email_password r; user_agent := ua;
     active := false; locks := ∅; headers := ∅;
     cookies := ∅; stats := stats r; error_msg := None;
     last_used := None; tx := tx r; mfa_code := mfa_code r;
     proxy_id := proxy_id r |}.

(** The SET clause [user_agent = "<ua>"] on each row named in the list:
    the value is the column [ident] of the row; NULL violates the NOT NULL
    constraint of [user_agent]. *)
Fixpoint relogin_rows (ident : string) (us : list string) (rs : list row)
    : res (list row) :=
  match rs with
  | [] => Ok []
  | r :: rs' =>
      let hd := if in_names us r then
                  match column_text ident r with
                  | Some v => Ok (relogin_row v r)
                  | None => Err "null value in column user_agent violates not-null constraint"
                  end
                else Ok r in
      match hd, relogin_rows ident us rs' with
      | Ok r', Ok rs'' => Ok (r' :: rs'')
      | Err e, _ => Err e
      | _, Err e => Err e
      end
  end.

(** [relogin(usernames)]: nothing for an empty list; otherwise one UPDATE
    whose f-string writes the user agent between double quotes.  In SQL a
    double-quoted text is an identifier (cut to 63 bytes), so the value
    is read from the column of that name: the statement fails when there
    is none, and a double quote inside ends the identifier (a syntax
    error).  [login_all] runs after the UPDATE. *)
Definition relogin (names : list string) (rs : list row) : res (list row) :=
  match remove_dups names with
  | [] => Ok rs
  | us =>
      let ident := substring 0 63 safari_ua in
      if existsb (fun c => Ascii.eqb c "034") (list_ascii_of_string safari_ua)
      then Err "syntax error"
      else if existsb (String.eqb ident) accounts_columns
      then match relogin_rows ident us rs with
           | Ok rs' => login_all us rs'
           | Err e => Err e
           end
      else Err ("column " +:+ ident +:+ " does not exist")
  end.

(** [SELECT username FROM accounts WHERE active = false AND error_msg IS
    NOT NULL] *)
Definition failed_rows (rs : list row) : list row :=
  List.filter (fun r => negb (active r) && bool_decide (is_Some (error_msg r))) rs.

(** [relogin_failed()]: [x["username"]] on each fetched row; a SQLAlchemy 2
    [Row] is a tuple and a string index raises [TypeError]; with no row
    the list is empty and [relogin([])] returns. *)
Definition relogin_failed (rs : list row) : res (list row) :=
  match failed_rows rs with
  | [] => relogin [] rs
  | _ => Err "TypeError: tuple indices must be integers or slices, not str"
  end.

End Relogin.

(* ------------------------------------------------------------------ *)
(** ** [AccountsPool.stats] *)

(** The number of rows a [SELECT COUNT] over [accounts] counts. *)
Definition count_rows (p : row -> bool) (rs : list row) : Z :=
  Z.of_nat (length (List.filter p rs)).

(** [(locks->>'queue')::timestamptz IS NOT NULL AND
     (locks->>'queue')::timestamptz > now()] *)
Definition locked_at (now : Z) (queue : string) (r : row) : bool :=
  match locks r !! queue with
  | Some t => now <? t
  | None => false
  end.

(** [SELECT DISTINCT f.key FROM accounts, jsonb_each(locks) AS f(key, value)] *)
Definition gql_ops (rs : list row) : gset string :=
  ⋃ (map (fun r => dom (locks r)) rs).

(** A double-quoted identifier longer than 63 bytes is cut to 63 bytes
    (NAMEDATALEN - 1).  Keys are taken as ASCII (Postgres does not cut a
    multi-byte character in two). *)
Definition pg_ident (k : string) : string := substring 0 63 k.

(** The (alias, value) columns of the [stats()] SELECT, in order. *)
Definition stats_columns (now : Z) (rs : list row) : list (string * Z) :=
  [("total", count_rows (fun _ => true) rs);
   ("active", count_rows active rs);
   ("inactive", count_rows (fun r => negb (active r)) rs)]
  ++ map (fun q => ("locked_" +:+ q, count_rows (locked_at now q) rs))
         (elements (gql_ops rs)).

(** [stats()]: one SELECT whose columns are [(subquery) as "<k>"] for
    [total], [active], [inactive] and [locked_<queue>] for every lock key,
    read back with [dict(rs._mapping)], which raises when two columns carry
    the same name.  Lock keys holding quotes, which break the statement,
    are not modelled. *)
Definition pool_stats (now : Z) (rs : list row) : res (gmap string Z) :=
  let cols := stats_columns now rs in
  if bool_decide (NoDup (map (fun kv => pg_ident kv.1) cols))
  then Ok (list_to_map (map (fun kv => (pg_ident kv.1, kv.2)) cols))
  else Err "InvalidRequestError: Ambiguous column name".

(* ------------------------------------------------------------------ *)
(** ** [Account.make_client] *)

Section MakeClient.

(** The headers an [httpx.AsyncClient] starts with, by lower-case name. *)
Variable httpx_default_headers : gmap string string.

Definition TOKEN : string :=
  "Bearer AAAAAAAAAAAAAAAAAAAAANRILgAAAAAAnNwIzUejRCOuH5E6I8xnZz4puTs%3D1Zv7ttfk8LF81IUq16cHjhLTvJu4FA33AGWWjCpTnA".

Record client := mk_client {
  client_proxy : option string;
  client_headers : gmap string string;
  client_cookies : gmap string string
}.

(** httpx header names compare without case: [headers[k] = v] replaces
    the header of that name. *)
Definition set_header (k v : string) (h : gmap string string) : gmap string string :=
  <[lower k := v]> h.

(** [make_client(proxy)] for an account with the row's [cookies],
    [headers] and [user_agent], and the dataclass field [proxy];
    [env_proxy] is [os.getenv("TWS_PROXY")]. *)
Definition make_client (r : row) (account_proxy env_proxy proxy : option string)
    : client :=
  let p := match proxy with
           | Some x => Some x
           | None => match env_proxy with
                     | Some x => Some x
                     | None => account_proxy
                     end
           end in
  let h0 := map_fold set_header httpx_default_headers (headers r) in
  let h1 := set_header "x-twitter-client-language" "en"
              (set_header "x-twitter-active-user" "yes"
                (set_header "authorization" TOKEN
                  (set_header "content-type" "application/json"
                    (set_header "user-agent" (user_agent r) h0)))) in
  let h2 := match cookies r !! "ct0" with
            | Some v => set_header "x-csrf-token" v h1
            | None => h1
            end in
  mk_client p h2 (cookies r).

End MakeClient.

(* ------------------------------------------------------------------ *)
(** ** [db_pg.check_migrations] *)

(** The module globals [_migration_checked] and [_migrations_exist]. *)
Record mig_state := mk_mig {
  migration_checked : bool;
  migrations_exist : bool
}.

Definition mig_init : mig_state := mk_mig false true.

(** What the [information_schema] query would see: the table, no table,
    or an exception (no connection). *)
Inductive probe := TableFound | TableMissing | ProbeFailed.

Definition migration_error : string :=
  "MigrationError: Database schema not found. Please run 'alembic upgrade head' first.".

(** [check_migrations()]: the probe runs only while [_migration_checked]
    is false. *)
Definition check_migrations (st : mig_state) (p : probe) : res unit * mig_state :=
  if migration_checked st then
    (if migrations_exist st then Ok tt else Err migration_error, st)
  else match p with
       | TableFound => (Ok tt, mk_mig true (migrations_exist st))
       | TableMissing => (Err migration_error, mk_mig true false)
       | ProbeFailed => (Ok tt, mk_mig true (migrations_exist st))
       end.

(** The checks run by successive [fetchone], [fetchall] and [execute]
    calls, each seeing the probe of its own moment. *)
Fixpoint check_calls (st : mig_state) (ps : list probe) : list (res unit) :=
  match ps with
  | [] => []
  | p :: ps' => let (r, st') := check_migrations st p in r :: check_calls st' ps'
  end.

(* ================================================================== *)
(** * Properties *)

(** ** Orders and selection *)

Lemma str_leb_refl (s : string) : str_leb s s = true.
Proof.
  induction s as [|c s IH]; simpl; [done|].
  rewrite Nat.ltb_irrefl, Nat.eqb_refl. exact IH.
Qed.

Lemma str_leb_total (a b : string) : str_leb a b = true \/ str_leb b a = true.
Proof.
  revert b. induction a as [|c a IH]; intros [|d b]; simpl; auto.
  destruct (Nat.ltb_spec (nat_of_ascii c) (nat_of_ascii d)); auto.
  destruct (Nat.ltb_spec (nat_of_ascii d) (nat_of_ascii c)); auto.
  assert (nat_of_ascii c = nat_of_ascii d) as E by lia.
  rewrite E, Nat.eqb_refl. apply IH.
Qed.

Lemma str_leb_trans (a b c : string) :
  str_leb a b = true -> str_leb b c = true -> str_leb a c = true.
Proof.
  revert b c. induction a as [|x a IH]; intros [|y b] [|z c]; simpl; auto;
    try discriminate.
  intros H1 H2.
  destruct (Nat.ltb_spec (nat_of_ascii x) (nat_of_ascii y)) as [L1|L1];
  destruct (Nat.ltb_spec (nat_of_ascii y) (nat_of_ascii z)) as [L2|L2];
  destruct (Nat.ltb_spec (nat_of_ascii x) (nat_of_ascii z)) as [L3|L3]; auto;
  repeat match goal with
         | H : context [Nat.eqb ?p ?q] |- _ =>
             destruct (Nat.eqb_spec p q); try discriminate
         | |- context [Nat.eqb ?p ?q] => destruct (Nat.eqb_spec p q)
         end; try lia; eauto.
Qed.

Lemma order_by_username_total (a b : row) :
  order_by_username a b = true \/ order_by_username b a = true.
Proof. apply str_leb_total. Qed.

Lemma order_by_username_trans (a b c : row) :
  order_by_username a b = true -> order_by_username b c = true ->
  order_by_username a c = true.
Proof. apply str_leb_trans. Qed.

Lemma pick_first_None (ord : row -> row -> bool) (l : list row) :
  pick_first ord l = None <-> l = [].
Proof.
  split; [|intros ->; done].
  destruct l as [|r l]; simpl; [done|].
  destruct (pick_first ord l); [destruct (ord r r0)|]; discriminate.
Qed.

Lemma pick_first_In (ord : row -> row -> bool) (l : list row) (c : row) :
  pick_first ord l = Some c -> In c l.
Proof.
  revert c. induction l as [|r l IH]; intros c H; simpl in *; [discriminate|].
  destruct (pick_first ord l) as [b|] eqn:E.
  - destruct (ord r b); injection H as <-; [left; done | right; apply IH; done].
  - injection H as <-. left. done.
Qed.

Section Minimal.
Variable ord : row -> row -> bool.
Hypothesis ord_total : forall a b, ord a b = true \/ ord b a = true.
Hypothesis ord_trans : forall a b c, ord a b = true -> ord b c = true -> ord a c = true.

Lemma pick_first_min (l : list row) (c : row) :
  pick_first ord l = Some c -> forall x, In x l -> ord c x = true.
Proof.
  revert c. induction l as [|r l IH]; intros c H x Hx; simpl in *; [done|].
  destruct (pick_first ord l) as [b|] eqn:E.
  - specialize (IH b eq_refl).
    destruct (ord r b) eqn:Hrb; injection H as ->.
    + destruct Hx as [->|Hx].
      * destruct (ord_total x x); done.
      * eapply ord_trans; [exact Hrb|]. apply IH. done.
    + destruct Hx as [->|Hx].
      * destruct (ord_total x c) as [H|H]; congruence.
      * apply IH. done.
  - apply pick_first_None in E as ->.
    injection H as ->. destruct Hx as [->|[]]. destruct (ord_total x x); done.
Qed.
End Minimal.

(** ** Lookup and update of rows *)

Lemma fetch_by_username_None (u : string) (rs : list row) :
  fetch_by_username u rs = None <-> Forall (fun r => ci_eq (username r) u = false) rs.
Proof.
  unfold fetch_by_username. induction rs as [|r rs IH]; simpl.
  - split; [constructor|done].
  - destruct (ci_eq (username r) u) eqn:E; split; intros H.
    + discriminate.
    + inversion H; congruence.
    + constructor; [done|]. apply IH. done.
    + inversion H; subst. apply IH. done.
Qed.

Lemma fetch_by_username_Some (u : string) (rs : list row) (r : row) :
  fetch_by_username u rs = Some r -> In r rs /\ ci_eq (username r) u = true.
Proof.
  unfold fetch_by_username. intros H. split.
  - eapply find_some in H. tauto.
  - eapply find_some in H. tauto.
Qed.

Lemma fetch_by_username_In (u : string) (rs : list row) (r : row) :
  In r rs -> ci_eq (username r) u = true -> exists r', fetch_by_username u rs = Some r'.
Proof.
  intros Hin Hci. destruct (fetch_by_username u rs) as [r'|] eqn:E; [eauto|].
  apply fetch_by_username_None in E. rewrite Forall_forall in E.
  specialize (E r Hin). congruence.
Qed.

(** ** Lookup: [get] and [get_account] *)

(** C10: for a username with no matching row (up to case), [get] raises
    ["Account <u> not found"] and [get_account] returns [None]; for a
    stored username both decode the same fetched row, so [get] returns an
    account exactly when [get_account] returns it. *)
Theorem get_get_account_agree (account : Type) (from_rs : row -> res account)
    (u : string) (rs : list row) :
  ((fetch_by_username u rs = None
    /\ get account from_rs u rs = Err ("Account " +:+ u +:+ " not found")
    /\ get_account account from_rs u rs = Ok None)
   \/ (exists r, fetch_by_username u rs = Some r
                 /\ get account from_rs u rs = from_rs r))
  /\ (forall a, get account from_rs u rs = Ok a
                <-> get_account account from_rs u rs = Ok (Some a)).
Proof.
  unfold get, get_account.
  destruct (fetch_by_username u rs) as [r|] eqn:E.
  - split; [right; exists r; done|].
    intros a. destruct (from_rs r); split; intros H; congruence.
  - split; [left; done|]. intros a; split; intros H; discriminate.
Qed.

(** ** [reset_locks] *)

Lemma relogin_literal_is_empty_object : jsonb_in relogin_locks_literal = Some (JObj []).
Proof. vm_compute. reflexivity. Qed.

Lemma reset_literal_is_not_json : jsonb_in reset_locks_literal = None.
Proof. vm_compute. reflexivity. Qed.

(** C4: [reset_locks] on any table fails with "invalid input syntax for
    type json": its statement is a plain string, so the doubled braces of
    ['{{}}'] reach Postgres; no lock is cleared. *)
Theorem reset_locks_raises (rs : list row) :
  reset_locks rs = Err "invalid input syntax for type json".
Proof. unfold reset_locks. rewrite reset_literal_is_not_json. reflexivity. Qed.

(** ** [add_account] *)

(** C7: when a row whose username equals [u] up to case is stored,
    [add_account] with [u] returns without error and leaves both tables
    unchanged (same single row, same credentials and session state). *)
Theorem add_account_existing_noop (default_ua : string)
    (parse_cookies : string -> gmap string string) (d : db) (u pw em ep : string)
    (ua proxy ck mfa : option string) (r : row) :
  In r (accounts d) -> ci_eq (username r) u = true ->
  add_account default_ua parse_cookies d u pw em ep ua proxy ck mfa = Ok d.
Proof.
  intros Hin Hci. unfold add_account.
  destruct (fetch_by_username_In u (accounts d) r Hin Hci) as [r' ->].
  reflexivity.
Qed.

Lemma add_account_existing_noop_witness :
  let d := mk_db [sample_row "User1" true ∅] [] in
  add_account "safari" (fun _ => ∅) d "uSER1" "other" "e2" "ep2"
    None (Some "http://p:1") (Some "ct0=x") None = Ok d.
Proof.
  apply (add_account_existing_noop "safari" (fun _ => ∅)
           (mk_db [sample_row "User1" true ∅] []) "uSER1" "other" "e2" "ep2"
           None (Some "http://p:1") (Some "ct0=x") None (sample_row "User1" true ∅)).
  - simpl. left. reflexivity.
  - vm_compute. reflexivity.
Defined.

(** ** [get_for_queue_or_wait] with no active account *)

Lemma filter_eligible_inactive (now : Z) (queue : string) (rs : list row) :
  forallb (fun r => negb (active r)) rs = true ->
  List.filter (eligible now queue) rs = [].
Proof.
  induction rs as [|r rs IH]; simpl; [done|].
  intros [Ha Hrs]%andb_prop. unfold eligible at 1.
  destruct (active r); [discriminate|]. simpl. apply IH. exact Hrs.
Qed.

Lemma min_lock_inactive (queue : string) (rs : list row) :
  forallb (fun r => negb (active r)) rs = true -> min_lock queue rs = None.
Proof.
  induction rs as [|r rs IH]; simpl; [done|].
  intros [Ha Hrs]%andb_prop. rewrite (IH Hrs).
  destruct (active r); [discriminate|]. reflexivity.
Qed.

(** With fail-fast off, no active account in the table seen by the first
    poll and a queue named with letters, digits and [_], the wait returns
    [None] at once with the table unchanged, whatever later polls would
    see and whatever [utc.from_iso] does. *)
Theorem or_wait_no_active_returns_none (lock_from_iso ts_from_iso : Z -> res Z)
    (ord : row -> row -> bool) (queue : string) (now : Z) (rs : list row)
    (more : list (Z * list row)) :
  plain_queue queue = true ->
  forallb (fun r => negb (active r)) rs = true ->
  get_for_queue_or_wait lock_from_iso ts_from_iso ord false queue ((now, rs) :: more)
  = Returned None rs.
Proof.
  intros _ H. unfold get_for_queue_or_wait. simpl.
  unfold get_for_queue, lock_returning.
  rewrite (filter_eligible_inactive now queue rs H). simpl.
  unfold next_available_at. rewrite (min_lock_inactive queue rs H). reflexivity.
Qed.

Lemma or_wait_no_active_returns_none_witness :
  get_for_queue_or_wait (fun t => Ok t) (fun t => Ok t) order_by_username false
    "SearchTimeline"
    [(100, [sample_row "u1" false {[ "SearchTimeline" := 500 ]};
            sample_row "u2" false ∅]);
     (105, [sample_row "u1" true ∅])]
  = Returned None [sample_row "u1" false {[ "SearchTimeline" := 500 ]};
                   sample_row "u2" false ∅].
Proof.
  apply or_wait_no_active_returns_none; vm_compute; reflexivity.
Defined.

Lemma count_quotes_app (a b : string) :
  count_quotes (a +:+ b) = (count_quotes a + count_quotes b)%nat.
Proof. induction a as [|c a IH]; simpl; [reflexivity|]. rewrite IH. lia. Qed.

(** C6: the queue name is written into the lease statement between single
    quotes, unescaped, three times.  A queue name with an odd number of
    single quotes (["it's"]) leaves the statement with an odd number of
    them, so one string literal is never closed and Postgres rejects the
    statement: [get_for_queue_or_wait] raises instead of returning empty,
    even with no active account. *)
Theorem get_for_queue_sql_unterminated (order_by queue : string) :
  Nat.odd (count_quotes queue) = true ->
  Nat.odd (count_quotes order_by) = false ->
  Nat.odd (count_quotes (get_and_lock_sql queue (get_for_queue_sql order_by queue))) = true.
Proof.
  intros Hq Ho.
  assert (occurs " " (get_for_queue_sql order_by queue) = true) as Hsp by reflexivity.
  unfold get_and_lock_sql. rewrite Hsp. unfold get_for_queue_sql.
  rewrite !count_quotes_app, !Nat.odd_add, Hq, Ho. reflexivity.
Qed.

Lemma get_for_queue_sql_unterminated_witness :
  Nat.odd (count_quotes (get_and_lock_sql "it's" (get_for_queue_sql "username" "it's")))
  = true.
Proof. apply get_for_queue_sql_unterminated; reflexivity. Defined.

(** ** JSONB paths of plain queue names *)

Lemma ident_char_not_comma (c : ascii) : ident_char c = true -> Ascii.eqb c "," = false.
Proof.
  intros H. destruct (Ascii.eqb_spec c ",") as [->|]; [discriminate|reflexivity].
Qed.

Lemma split_commas_ident (s : string) : all_ident s = true -> split_commas s = [s].
Proof.
  induction s as [|c s IH]; simpl; [done|].
  intros [Hc Hs]%andb_prop. rewrite (ident_char_not_comma c Hc), (IH Hs). reflexivity.
Qed.

Lemma queue_path_plain (queue : string) : plain_queue queue = true -> queue_path queue = [queue].
Proof.
  unfold plain_queue, queue_path. intros [[Hne Hid]%andb_prop _]%andb_prop.
  apply negb_true_iff in Hne. rewrite Hne. apply split_commas_ident. exact Hid.
Qed.

Lemma jsonb_set_plain {V} (m : gmap string V) (queue : string) (v : V) :
  plain_queue queue = true -> jsonb_set m (queue_path queue) v = <[queue := v]> m.
Proof. intros H. rewrite (queue_path_plain queue H). reflexivity. Qed.

(** Whatever the queue name, the key [queue] is either set to [v] or kept. *)
Lemma jsonb_set_lookup_self {V} (m : gmap string V) (queue : string) (v : V) :
  jsonb_set m (queue_path queue) v !! queue = Some v
  \/ jsonb_set m (queue_path queue) v !! queue = m !! queue.
Proof.
  unfold jsonb_set. destruct (queue_path queue) as [|k [|k' p]]; auto.
  destruct (decide (k = queue)) as [->|Hne].
  - left. apply lookup_insert_eq.
  - right. apply lookup_insert_ne. exact Hne.
Qed.

(** ** Updates keep usernames *)

Lemma fetch_update_where (u : string) (f : row -> row) (rs : list row) :
  (forall r, username (f r) = username r) ->
  fetch_by_username u (update_where u f rs) = option_map f (fetch_by_username u rs).
Proof.
  intros Hf. unfold fetch_by_username, update_where.
  induction rs as [|r rs IH]; simpl; [done|].
  destruct (ci_eq (username r) u) eqn:E.
  - rewrite Hf, E. reflexivity.
  - rewrite E. exact IH.
Qed.

Lemma NoDup_map_same {A B} (f : A -> B) (l : list A) (x y : A) :
  NoDup (map f l) -> In x l -> In y l -> f x = f y -> x = y.
Proof.
  induction l as [|a l IH]; simpl; [tauto|].
  intros Hnd Hx Hy Hf. inversion Hnd as [|? ? Hna Hnd']; subst.
  destruct Hx as [<-|Hx]; destruct Hy as [<-|Hy]; auto.
  - exfalso. apply Hna. rewrite Hf. apply list_elem_of_In, in_map. exact Hy.
  - exfalso. apply Hna. rewrite <- Hf. apply list_elem_of_In, in_map. exact Hx.
Qed.

Lemma ci_eq_lower (a b : string) : ci_eq a b = true -> lower a = lower b.
Proof. unfold ci_eq. apply String.eqb_eq. Qed.

Lemma ci_eq_refl (a : string) : ci_eq a a = true.
Proof. unfold ci_eq. apply String.eqb_refl. Qed.

(** With unique usernames, the row fetched by a stored row's username is
    that row. *)
Lemma fetch_unique (rs : list row) (c : row) :
  unique_usernames rs -> In c rs -> fetch_by_username (username c) rs = Some c.
Proof.
  intros Hu Hc.
  destruct (fetch_by_username_In (username c) rs c Hc (ci_eq_refl _)) as [r0 E].
  rewrite E. destruct (fetch_by_username_Some _ _ _ E) as [Hr0 Hci].
  f_equal. eapply NoDup_map_same; [exact Hu | exact Hr0 | exact Hc |].
  apply ci_eq_lower. exact Hci.
Qed.

(** ** [lock_returning] *)

Lemma lock_returning_None (ord : row -> row -> bool) (now : Z) (queue : string)
    (rs : list row) :
  fst (lock_returning ord now queue rs) = None
  <-> Forall (fun r => eligible now queue r = false) rs.
Proof.
  unfold lock_returning.
  destruct (pick_first ord (List.filter (eligible now queue) rs)) as [c|] eqn:E; simpl.
  - split; [|intros H].
    + intros Hf. exfalso.
      pose proof (pick_first_In _ _ _ E) as Hin.
      apply filter_In in Hin as [Hin _].
      rewrite (fetch_update_where _ (lease_row now queue) _ (fun r => eq_refl)) in Hf.
      destruct (fetch_by_username_In (username c) rs c Hin (ci_eq_refl _)) as [r' E'].
      rewrite E' in Hf. discriminate.
    + exfalso. pose proof (pick_first_In _ _ _ E) as Hin.
      apply filter_In in Hin as [Hin He]. rewrite Forall_forall in H.
      rewrite (H c Hin) in He. discriminate.
  - split; [intros _|done].
    apply pick_first_None in E. apply Forall_forall. intros x Hx.
    destruct (eligible now queue x) eqn:Hx'; [|done].
    assert (In x (List.filter (eligible now queue) rs)) as Hf by (apply filter_In; auto).
    rewrite E in Hf. destruct Hf.
Qed.

Lemma lock_returning_Some (ord : row -> row -> bool) (now : Z) (queue : string)
    (rs : list row) (a : row) (rs' : list row) :
  unique_usernames rs ->
  lock_returning ord now queue rs = (Some a, rs') ->
  exists c, pick_first ord (List.filter (eligible now queue) rs) = Some c
    /\ In c rs /\ eligible now queue c = true
    /\ a = lease_row now queue c
    /\ rs' = update_where (username c) (lease_row now queue) rs.
Proof.
  intros Hu. unfold lock_returning.
  destruct (pick_first ord (List.filter (eligible now queue) rs)) as [c|] eqn:E;
    [|discriminate].
  intros H. injection H as Ha Hrs.
  pose proof (pick_first_In _ _ _ E) as Hin. apply filter_In in Hin as [Hin He].
  exists c. repeat split; auto.
  rewrite (fetch_update_where _ (lease_row now queue) _ (fun r => eq_refl)) in Ha.
  rewrite (fetch_unique rs c Hu Hin) in Ha. simpl in Ha. congruence.
Qed.

Lemma In_update_where (u : string) (f : row -> row) (rs : list row) (c : row) :
  In c rs -> ci_eq (username c) u = true -> In (f c) (update_where u f rs).
Proof.
  intros Hin Hci. unfold update_where. apply in_map_iff.
  exists c. rewrite Hci. auto.
Qed.

(** For a plain queue name, a lease picks the first eligible row in
    username order and returns it with [locks[queue] = now + LEASE_TTL]
    and [last_used = now]. *)
Lemma lock_returning_plain_spec (now : Z) (queue : string) (rs : list row)
    (a : row) (rs' : list row) :
  plain_queue queue = true -> unique_usernames rs ->
  lock_returning order_by_username now queue rs = (Some a, rs') ->
  exists c, In c rs /\ eligible now queue c = true
    /\ (forall x, In x rs -> eligible now queue x = true -> order_by_username c x = true)
    /\ a = set_last_used (Some now) (set_locks (<[queue := now + LEASE_TTL]> (locks c)) c)
    /\ In a rs'.
Proof.
  intros Hq Hu H.
  destruct (lock_returning_Some _ _ _ _ _ _ Hu H) as (c & Hp & Hin & He & -> & ->).
  exists c. split; [exact Hin|]. split; [exact He|]. split; [|split].
  - intros x Hx Hex.
    eapply (pick_first_min order_by_username order_by_username_total
              order_by_username_trans); [exact Hp|].
    apply filter_In. auto.
  - unfold lease_row. rewrite (jsonb_set_plain _ _ _ Hq). reflexivity.
  - apply In_update_where; [exact Hin | apply ci_eq_refl].
Qed.

(** For the queue name ["a,b"] the UPDATE writes the lock through
    [jsonb_set(locks, '{a,b}', ...)], whose path is the two keys [a], [b]:
    the lock is never written and the same row is taken again one second
    later. *)
Lemma lock_returning_comma_queue_not_locked :
  lock_returning order_by_username 1000 "a,b" [sample_row "u1" true ∅]
    = (Some (set_last_used (Some 1000) (sample_row "u1" true ∅)),
       [set_last_used (Some 1000) (sample_row "u1" true ∅)])
  /\ locks (set_last_used (Some 1000) (sample_row "u1" true ∅)) !! "a,b" = None
  /\ fst (lock_returning order_by_username 1001 "a,b"
            [set_last_used (Some 1000) (sample_row "u1" true ∅)])
     = Some (set_last_used (Some 1001) (sample_row "u1" true ∅)).
Proof. split; [|split]; vm_compute; reflexivity. Qed.

(** ** [Account.from_rs] and [get_for_queue] *)

(** The keyword arguments [from_rs] passes hold [proxy_id] (the column of
    migration [20250604]), which is not a field of [Account]. *)
Lemma account_init_from_rs_keys :
  account_init from_rs_keys
  = Err "TypeError: Account.__init__() got an unexpected keyword argument 'proxy_id'".
Proof. vm_compute. reflexivity. Qed.


(** When every stored lock parses, the message is the one about [proxy_id]. *)
Lemma from_rs_proxy_id (lock_from_iso : Z -> res Z) (r : row) :
  first_err (map (fun kv => lock_from_iso kv.2) (map_to_list (locks r))) = None ->
  from_rs lock_from_iso r
  = Err "TypeError: Account.__init__() got an unexpected keyword argument 'proxy_id'".
Proof. intros H. unfold from_rs. rewrite H, account_init_from_rs_keys. reflexivity. Qed.




(** On the failing input of C2: the lock is committed, then [from_rs]
    raises. *)
Lemma get_for_queue_sample_raises :
  get_for_queue (fun t => Ok t) order_by_username 1000 "SearchTimeline"
    [sample_row "u1" true ∅]
  = (Err "TypeError: Account.__init__() got an unexpected keyword argument 'proxy_id'",
     [lease_row 1000 "SearchTimeline" (sample_row "u1" true ∅)]).
Proof. vm_compute. reflexivity. Qed.





(** ** [lock_until] (release) *)

(** For a plain queue name, [lock_until] sets [locks[queue]], adds the
    delta to [stats[queue]] (missing key read as 0) and sets [last_used] on
    the rows with that username, and changes nothing else. *)
Lemma lock_until_plain_frame (now : Z) (u queue : string) (unlock_at req_count : Z)
    (rs : list row) :
  plain_queue queue = true ->
  lock_until now u queue unlock_at req_count rs
  = map (fun r => if ci_eq (username r) u
                  then set_last_used (Some now)
                         (set_stats (<[queue := default 0 (stats r !! queue) + req_count]> (stats r))
                            (set_locks (<[queue := unlock_at]> (locks r)) r))
                  else r) rs.
Proof.
  intros Hq. unfold lock_until, update_where. apply map_ext. intros r.
  destruct (ci_eq (username r) u); [|reflexivity].
  unfold lock_until_row. rewrite !(jsonb_set_plain _ _ _ Hq). reflexivity.
Qed.

(** C8: [lock_until] writes the lock and the counter through the path
    ['{queue}']; for the queue name ["a,b"] neither [locks["a,b"]] nor
    [stats["a,b"]] is written, only [last_used] changes. *)
Theorem lock_until_comma_queue_not_written :
  lock_until 1000 "u1" "a,b" 5000 1 [sample_row "u1" true ∅]
  = [set_last_used (Some 1000) (sample_row "u1" true ∅)].
Proof. vm_compute. reflexivity. Qed.

(** ** [unlock] *)




(** ** Proxy registry *)

Lemma get_active_Some (seed : nat) (ps : list Proxies.proxy) (pid : Z) (u : string) :
  Proxies.get_active seed ps = Some (pid, u) ->
  exists p, In p ps /\ Proxies.active p = true /\ Proxies.id p = pid.
Proof.
  unfold Proxies.get_active.
  destruct (List.filter Proxies.active ps) as [|p0 act] eqn:E; [discriminate|].
  destruct (nth_error (p0 :: act) (seed mod length (p0 :: act))) as [p|] eqn:En;
    [|discriminate].
  intros H. injection H as <- _. exists p.
  apply nth_error_In in En. rewrite <- E in En. apply filter_In in En as [? ?].
  auto.
Qed.

Lemma get_active_nonempty (seed : nat) (ps : list Proxies.proxy) :
  List.filter Proxies.active ps <> [] -> exists x, Proxies.get_active seed ps = Some x.
Proof.
  unfold Proxies.get_active. intros Hne.
  destruct (List.filter Proxies.active ps) as [|p0 act] eqn:E; [congruence|].
  destruct (nth_error (p0 :: act) (seed mod length (p0 :: act))) as [p|] eqn:En; [eauto|].
  apply nth_error_None in En.
  pose proof (Nat.mod_upper_bound seed (length (p0 :: act))) as Hb.
  simpl in *. lia.
Qed.

Lemma is_active_intro (pid : Z) (ps : list Proxies.proxy) (p : Proxies.proxy) :
  In p ps -> Proxies.active p = true -> Proxies.id p = pid -> Proxies.is_active pid ps = true.
Proof.
  intros Hin Ha Hid. unfold Proxies.is_active. apply existsb_exists.
  exists p. split; [exact Hin|]. rewrite Ha, Hid, Z.eqb_refl. reflexivity.
Qed.

Lemma mark_failed_inactive (ts pid : Z) (ps : list Proxies.proxy) :
  Proxies.is_active pid (Proxies.mark_failed ts pid ps) = false.
Proof.
  unfold Proxies.is_active, Proxies.mark_failed.
  induction ps as [|p ps IH]; simpl; [done|].
  destruct (Proxies.id p =? pid) eqn:E; simpl.
  - rewrite E. exact IH.
  - rewrite E. exact IH.
Qed.

Lemma NoDup_map_filter {A B} (f : A -> B) (g : A -> bool) (l : list A) :
  NoDup (map f l) -> NoDup (map f (List.filter g l)).
Proof.
  induction l as [|a l IH]; simpl; [done|].
  intros Hnd. inversion Hnd as [|? ? Hna Hnd']; subst.
  destruct (g a); simpl; [|apply IH; exact Hnd'].
  constructor; [|apply IH; exact Hnd'].
  intros Hin. apply Hna. apply list_elem_of_In in Hin. apply list_elem_of_In.
  apply in_map_iff in Hin as (x & <- & Hx). apply filter_In in Hx as [Hx _].
  apply in_map. exact Hx.
Qed.

(** With unique ids and two active proxies, one stays active after one of
    them is marked failed. *)
Lemma mark_failed_survivor (ts pid : Z) (ps : list Proxies.proxy) :
  (2 <= length (List.filter Proxies.active ps))%nat ->
  NoDup (map Proxies.id ps) ->
  List.filter Proxies.active (Proxies.mark_failed ts pid ps) <> [].
Proof.
  intros Hlen Hnd.
  pose proof (NoDup_map_filter Proxies.id Proxies.active ps Hnd) as Hnd2.
  destruct (List.filter Proxies.active ps) as [|x [|y rest]] eqn:E; simpl in Hlen; [lia|lia|].
  simpl in Hnd2. inversion Hnd2 as [|? ? Hnx _]; subst.
  assert (Proxies.id x <> Proxies.id y) as Hxy.
  { intros Heq. apply Hnx. rewrite Heq. apply list_elem_of_In. left. reflexivity. }
  assert (In x (List.filter Proxies.active ps)) as Hx by (rewrite E; left; done).
  assert (In y (List.filter Proxies.active ps)) as Hy by (rewrite E; right; left; done).
  apply filter_In in Hx as [Hx Hax]. apply filter_In in Hy as [Hy Hay].
  assert (exists z, In z ps /\ Proxies.active z = true /\ Proxies.id z <> pid) as (z & Hz & Haz & Hzp).
  { destruct (Z.eq_dec (Proxies.id x) pid) as [Hx'|Hx'].
    - exists y. split; [exact Hy|]. split; [exact Hay|]. congruence.
    - exists x. auto. }
  intros Hnil.
  assert (In z (List.filter Proxies.active (Proxies.mark_failed ts pid ps))) as Hin.
  { apply filter_In. split; [|exact Haz].
    unfold Proxies.mark_failed. apply in_map_iff. exists z. split; [|exact Hz].
    apply Z.eqb_neq in Hzp. rewrite Hzp. reflexivity. }
  rewrite Hnil in Hin. destruct Hin.
Qed.

(** ** Rows: what leases and unlocks keep *)

Definition key_proxy (r : row) : string * option Z := (username r, proxy_id r).

Lemma fetch_key_proxy (u : string) (rs rs' : list row) :
  map key_proxy rs = map key_proxy rs' ->
  option_map key_proxy (fetch_by_username u rs) = option_map key_proxy (fetch_by_username u rs').
Proof.
  unfold fetch_by_username. revert rs'.
  induction rs as [|r rs IH]; intros [|r' rs'] H; simpl in *; try discriminate; [done|].
  unfold key_proxy in H at 1 2. injection H as Hu Hp Hrs.
  rewrite Hu. destruct (ci_eq (username r') u); simpl.
  - unfold key_proxy. rewrite Hu, Hp. reflexivity.
  - apply IH. exact Hrs.
Qed.

Lemma unlock_key_proxy (now : Z) (u queue : string) (req_count : Z) (rs : list row) :
  map key_proxy (unlock now u queue req_count rs) = map key_proxy rs.
Proof.
  unfold unlock, update_where.
  destruct (0 <? req_count); rewrite ?map_map; apply map_ext; intros r;
    repeat case_match; reflexivity.
Qed.

Lemma lock_returning_proxy_ids (ord : row -> row -> bool) (now : Z) (queue : string)
    (rs : list row) (oa : option row) (rs' : list row) :
  Forall (fun r => proxy_id r = None) rs ->
  lock_returning ord now queue rs = (oa, rs') ->
  Forall (fun r => proxy_id r = None) rs'.
Proof.
  intros H. unfold lock_returning.
  destruct (pick_first _ _) as [c|].
  - intros E. injection E as _ <-. unfold update_where.
    apply Forall_forall. intros r Hr. apply in_map_iff in Hr as (r0 & <- & Hr0).
    rewrite Forall_forall in H. specialize (H r0 Hr0).
    destruct (ci_eq _ _); exact H.
  - intros E. injection E as _ <-. exact H.
Qed.

Lemma lock_returning_In (ord : row -> row -> bool) (now : Z) (queue : string)
    (rs : list row) (a : row) (rs' : list row) :
  lock_returning ord now queue rs = (Some a, rs') -> In a rs'.
Proof.
  unfold lock_returning. destruct (pick_first _ _) as [c|]; [|discriminate].
  intros E. injection E as Ha <-.
  apply fetch_by_username_Some in Ha as [Ha _]. exact Ha.
Qed.

(** ** The Queue Client: proxy rotation *)





(* ================================================================== *)
(** * Further properties of the pool, the proxy registry and the client *)

(** ** Python string helpers *)

Lemma prefix_app (s t : string) : String.prefix s (s +:+ t) = true.
Proof.
  induction s as [|c s IH]; simpl; [destruct t; reflexivity|].
  destruct (ascii_dec c c); [exact IH | congruence].
Qed.

Lemma split_go_skip (sep l t : string) :
  split_go sep (String.length l) (l +:+ t) = split_go sep O t.
Proof. induction l as [|c l IH]; simpl; [reflexivity | exact IH]. Qed.

Lemma split_go_sep (c : ascii) (sep' t : string) :
  split_go (String c sep') O (String c sep' +:+ t)
  = EmptyString :: split_go (String c sep') O t.
Proof.
  change (String c sep' +:+ t) with (String c (sep' +:+ t)).
  cbn [split_go].
  replace (String.prefix (String c sep') (String c (sep' +:+ t))) with true
    by (symmetry; apply (prefix_app (String c sep') t)).
  cbn [pred String.length]. rewrite split_go_skip. reflexivity.
Qed.

Lemma split_go_no_occ (sep t : string) :
  occurs sep t = false -> split_go sep O t = [t].
Proof.
  induction t as [|c t IH]; [reflexivity|].
  simpl. intros [Hp Ho]%orb_false_iff.
  rewrite Hp, (IH Ho). reflexivity.
Qed.

Lemma strip_head (d : ascii) (rest : string) :
  py_space d = false -> exists r', strip (String d rest) = String d r'.
Proof.
  intros Hd. unfold strip. simpl. rewrite Hd. simpl. rewrite Hd. simpl. eauto.
Qed.

(** ** [guess_delim] *)

(** A line format that starts with [username] followed by a character
    other than white space, and names [username] nowhere else, has that
    character as its delimiter. *)
Theorem guess_delim_leading (d : ascii) (rest : string) :
  py_space d = false -> occurs "username" (String d rest) = false ->
  guess_delim ("username" +:+ String d rest) = Ok (String d EmptyString).
Proof.
  intros Hd Hocc. unfold guess_delim, py_split.
  rewrite (split_go_sep "u" "sername" (String d rest)).
  rewrite (split_go_no_occ _ _ Hocc).
  destruct (strip_head d rest Hd) as [r' Hr'].
  cbn [map]. rewrite Hr'. reflexivity.
Qed.

Lemma guess_delim_leading_witness :
  py_space ":" = false /\ occurs "username" ":password:email:email_password" = false
  /\ guess_delim ("username" +:+ ":password:email:email_password") = Ok ":".
Proof.
  split; [reflexivity|]. split; [vm_compute; reflexivity|].
  apply (guess_delim_leading ":" "password:email:email_password");
    vm_compute; reflexivity.
Defined.

(** A line format that does not contain [username] makes [guess_delim]
    raise [ValueError] (one piece where the unpacking expects two). *)
Theorem guess_delim_no_username (line : string) :
  occurs "username" line = false ->
  guess_delim line = Err "ValueError: not enough values to unpack (expected 2, got 1)".
Proof.
  intros Hocc. unfold guess_delim, py_split. rewrite (split_go_no_occ _ _ Hocc).
  reflexivity.
Qed.

Lemma guess_delim_no_username_witness :
  occurs "username" "user:password:email:email_password" = false
  /\ guess_delim "user:password:email:email_password"
     = Err "ValueError: not enough values to unpack (expected 2, got 1)".
Proof.
  split; [vm_compute; reflexivity|].
  apply guess_delim_no_username. vm_compute. reflexivity.
Defined.

(** ** [AccountsPool.load_from_file] *)

Lemma existsb_eqb_In (k : string) (l : list string) :
  existsb (String.eqb k) l = true <-> In k l.
Proof.
  rewrite existsb_exists. split.
  - intros (x & Hx & E). apply String.eqb_eq in E. subst. exact Hx.
  - intros H. exists k. split; [exact H | apply String.eqb_refl].
Qed.

Lemma parse_lines_short (delim : string) (tokens lines : list string) (line : string) :
  In line lines -> (length (py_split delim line) < length tokens)%nat ->
  exists e, parse_lines delim tokens lines = Err e.
Proof.
  induction lines as [|l lines IH]; simpl; [tauto|].
  intros [->|Hin] Hlt.
  - rewrite length_map. apply Nat.ltb_lt in Hlt. rewrite Hlt. eauto.
  - destruct (length (map strip (py_split delim l)) <? length tokens)%nat; [eauto|].
    destruct (IH Hin Hlt) as [e ->]. eauto.
Qed.

Lemma parse_lines_ok (delim : string) (tokens lines : list string) :
  Forall (fun line => (length tokens <= length (py_split delim line))%nat) lines ->
  parse_lines delim tokens lines
  = Ok (map (fun line => line_vals tokens
                           (firstn (length tokens) (map strip (py_split delim line))))
            lines).
Proof.
  induction lines as [|l lines IH]; simpl; [reflexivity|].
  intros Hf. inversion Hf as [|? ? Hl Hrest]; subst.
  rewrite length_map.
  destruct (Nat.ltb_spec (length (py_split delim l)) (length tokens)); [lia|].
  rewrite (IH Hrest). reflexivity.
Qed.

Lemma line_vals_fold_keep (l : list (string * string)) (m : gmap string string) (k : string) :
  is_Some (m !! k) ->
  is_Some (fold_left (fun m kv => if String.eqb kv.1 "_" then m else <[kv.1 := kv.2]> m)
             l m !! k).
Proof.
  revert m. induction l as [|[k' v] l IH]; intros m Hm; simpl; [exact Hm|].
  apply IH. destruct (String.eqb k' "_"); [exact Hm|].
  destruct (decide (k' = k)) as [->|Hne].
  - rewrite lookup_insert_eq. eauto.
  - rewrite lookup_insert_ne by exact Hne. exact Hm.
Qed.

Lemma line_vals_key (tokens data : list string) (k : string) :
  In k tokens -> k <> "_" -> (length tokens <= length data)%nat ->
  is_Some (line_vals tokens data !! k).
Proof.
  unfold line_vals. generalize (∅ : gmap string string) as m.
  revert data. induction tokens as [|t tokens IH]; intros data m Hin Hk Hlen; [destruct Hin|].
  destruct data as [|x data]; simpl in Hlen; [lia|].
  simpl. destruct Hin as [->|Hin].
  - apply line_vals_fold_keep. simpl.
    destruct (String.eqb_spec k "_"); [congruence|].
    rewrite lookup_insert_eq. eauto.
  - apply IH; [exact Hin | exact Hk | lia].
Qed.

(** When the delimiter of the line format cannot be guessed, or the format
    lacks one of [username], [password], [email], [email_password],
    [load_from_file] raises and adds nothing. *)
Theorem load_from_file_bad_format (dua : string) (pc : string -> gmap string string)
    (d : db) (content fmt : string) :
  (forall delim, guess_delim fmt = Ok delim ->
     exists k, In k required_fields /\ ~ In k (py_split delim fmt)) ->
  exists e, load_from_file dua pc d content fmt = (d, Some e).
Proof.
  intros H. unfold load_from_file.
  destruct (guess_delim fmt) as [delim|e]; [|eauto].
  destruct (H delim eq_refl) as (k & Hk & Hnk).
  replace (forallb (fun k => existsb (String.eqb k) (py_split delim fmt)) required_fields)
    with false; [eauto|].
  symmetry. apply not_true_iff_false. intros Hall.
  rewrite forallb_forall in Hall. apply Hnk, existsb_eqb_In, Hall, Hk.
Qed.

Lemma load_from_file_bad_format_witness :
  exists e, load_from_file "ua" (fun _ => ∅) (mk_db [] []) "u1:p1:e1" "username:password:email"
            = (mk_db [] [], Some e).
Proof.
  apply load_from_file_bad_format. intros delim Hg.
  vm_compute in Hg. injection Hg as <-.
  exists "email_password". split; [vm_compute; tauto|].
  vm_compute. intros [H|[H|[H|[]]]]; discriminate.
Defined.

(** Every non-blank line is parsed before any account is added: one line
    with fewer fields than the format makes [load_from_file] raise
    [ValueError] with the store unchanged, even when the lines before it
    are valid. *)
Theorem load_from_file_short_line (dua : string) (pc : string -> gmap string string)
    (d : db) (content fmt delim line : string) :
  guess_delim fmt = Ok delim ->
  In line (stripped_lines (py_split (String "010" EmptyString) content)) ->
  (length (py_split delim line) < length (py_split delim fmt))%nat ->
  exists e, load_from_file dua pc d content fmt = (d, Some e).
Proof.
  intros Hg Hin Hlt. unfold load_from_file. rewrite Hg.
  destruct (forallb _ required_fields); [|eauto].
  destruct (parse_lines_short delim (py_split delim fmt) _ line Hin Hlt) as [e ->].
  eauto.
Qed.

Definition two_lines : string :=
  "u1:p1:e1:ep1" +:+ String "010" "u2:p2:e2".

Lemma load_from_file_short_line_witness :
  exists e, load_from_file "ua" (fun _ => ∅) (mk_db [] []) two_lines
              "username:password:email:email_password" = (mk_db [] [], Some e).
Proof.
  apply (load_from_file_short_line "ua" (fun _ => ∅) (mk_db [] []) two_lines
           "username:password:email:email_password" ":" "u2:p2:e2").
  - vm_compute. reflexivity.
  - vm_compute. right. left. reflexivity.
  - vm_compute. lia.
Defined.

(** A field of the line format that is neither [_] nor a parameter of
    [add_account] makes the first call of [add_account] raise
    [TypeError]: with at least one well-formed line, [load_from_file]
    raises and adds nothing. *)
Theorem load_from_file_unknown_field (dua : string) (pc : string -> gmap string string)
    (d : db) (content fmt delim k : string) :
  let tokens := py_split delim fmt in
  let lines := stripped_lines (py_split (String "010" EmptyString) content) in
  guess_delim fmt = Ok delim ->
  Forall (fun f => In f tokens) required_fields ->
  In k tokens -> k <> "_" -> ~ In k add_account_params ->
  lines <> [] ->
  Forall (fun line => (length tokens <= length (py_split delim line))%nat) lines ->
  load_from_file dua pc d content fmt
  = (d, Some "TypeError: got an unexpected keyword argument").
Proof.
  intros tokens lines Hg Hreq Hk Hk_ Hkp Hne Hlong. unfold load_from_file.
  rewrite Hg. fold tokens. fold lines.
  replace (forallb (fun k => existsb (String.eqb k) tokens) required_fields) with true.
  2:{ symmetry. apply forallb_forall. intros f Hf. apply existsb_eqb_In.
      rewrite Forall_forall in Hreq. apply Hreq, Hf. }
  rewrite (parse_lines_ok _ _ _ Hlong).
  destruct lines as [|line0 more] eqn:El; [congruence|].
  inversion Hlong as [|? ? Hl0 _]; subst.
  cbn [map add_all]. unfold call_add_account.
  set (v0 := line_vals tokens (firstn (length tokens) (map strip (py_split delim line0)))).
  assert (is_Some (v0 !! k)) as [x Hx].
  { apply line_vals_key; [exact Hk | exact Hk_ |].
    rewrite length_firstn, length_map. lia. }
  replace (forallb (fun k => existsb (String.eqb k) add_account_params)
             (map fst (map_to_list v0))) with false; [reflexivity|].
  symmetry. apply not_true_iff_false. intros Hall. rewrite forallb_forall in Hall.
  apply Hkp, existsb_eqb_In, Hall.
  apply in_map_iff. exists (k, x). split; [reflexivity|].
  apply list_elem_of_In, elem_of_map_to_list. exact Hx.
Qed.

Definition phone_line : string := "u1:p1:e1:ep1:555".

Lemma load_from_file_unknown_field_witness :
  load_from_file "ua" (fun _ => ∅) (mk_db [] []) phone_line
    "username:password:email:email_password:phone"
  = (mk_db [] [], Some "TypeError: got an unexpected keyword argument").
Proof.
  apply (load_from_file_unknown_field "ua" (fun _ => ∅) (mk_db [] []) phone_line
           "username:password:email:email_password:phone" ":" "phone").
  - vm_compute. reflexivity.
  - vm_compute. repeat constructor; tauto.
  - vm_compute. tauto.
  - discriminate.
  - vm_compute. intros H; repeat destruct H as [H|H]; try discriminate; exact H.
  - vm_compute. discriminate.
  - vm_compute. repeat constructor; lia.
Defined.

(** ** Leases never reach accounts that are not eligible *)

Lemma ci_eq_trans_false (a b u : string) :
  ci_eq a b = true -> ci_eq b u = false -> ci_eq a u = false.
Proof.
  intros Hab Hbu. unfold ci_eq in *. apply String.eqb_eq in Hab. rewrite Hab. exact Hbu.
Qed.

(** If no row named [u] is eligible, a lease never returns an account
    named [u]. *)
Lemma lease_not_named (ord : row -> row -> bool) (now : Z) (queue u : string)
    (rs : list row) :
  (forall r, In r rs -> ci_eq (username r) u = true -> eligible now queue r = false) ->
  match fst (lock_returning ord now queue rs) with
  | Some a => ci_eq (username a) u = false
  | None => True
  end.
Proof.
  intros H. unfold lock_returning.
  destruct (pick_first ord (List.filter (eligible now queue) rs)) as [c|] eqn:E;
    simpl; [|exact I].
  apply pick_first_In in E. apply filter_In in E as [Hin He].
  assert (ci_eq (username c) u = false) as Hc.
  { destruct (ci_eq (username c) u) eqn:Hcu; [|reflexivity].
    rewrite (H c Hin Hcu) in He. discriminate. }
  destruct (fetch_by_username (username c) _) as [a|] eqn:Ea; [|exact I].
  apply fetch_by_username_Some in Ea as [_ Hac].
  exact (ci_eq_trans_false _ _ _ Hac Hc).
Qed.

Lemma update_where_In (u : string) (f : row -> row) (rs : list row) (r : row) :
  In r (update_where u f rs) ->
  exists r0, In r0 rs /\ r = if ci_eq (username r0) u then f r0 else r0.
Proof. unfold update_where. intros H. apply in_map_iff in H as (r0 & <- & H). eauto. Qed.

(** After [set_active(u, False)], and after [mark_inactive(u, msg)], no
    lease for any queue at any time returns an account named [u] (up to
    case). *)
Theorem deactivated_never_leased (ord : row -> row -> bool) (now : Z) (queue u : string)
    (msg : option string) (rs : list row) :
  match fst (lock_returning ord now queue (set_active u false rs)) with
  | Some a => ci_eq (username a) u = false
  | None => True
  end
  /\ match fst (lock_returning ord now queue (mark_inactive u msg rs)) with
     | Some a => ci_eq (username a) u = false
     | None => True
     end.
Proof.
  split; apply lease_not_named; intros r Hin Hru;
    apply update_where_In in Hin as (r0 & _ & ->);
    destruct (ci_eq (username r0) u) eqn:E; simpl in *; try congruence;
    unfold eligible; reflexivity.
Qed.

(** After [lock_until(u, queue, unlock_at, n)] on a queue named with
    letters, digits and [_], no lease for that queue returns an account
    named [u] at any time up to [unlock_at]. *)
Theorem lock_until_blocks_lease (ord : row -> row -> bool) (now now' : Z)
    (u queue : string) (unlock_at req_count : Z) (rs : list row) :
  plain_queue queue = true -> now' <= unlock_at ->
  match fst (lock_returning ord now' queue (lock_until now u queue unlock_at req_count rs)) with
  | Some a => ci_eq (username a) u = false
  | None => True
  end.
Proof.
  intros Hq Hle. apply lease_not_named. intros r Hin Hru.
  apply update_where_In in Hin as (r0 & _ & ->).
  destruct (ci_eq (username r0) u) eqn:E; simpl in Hru; [|congruence].
  unfold eligible, lock_until_row. simpl.
  rewrite (jsonb_set_plain _ _ _ Hq), lookup_insert_eq.
  destruct (Z.ltb_spec unlock_at now'); [lia|]. apply andb_false_r.
Qed.

Lemma lock_until_blocks_lease_witness :
  plain_queue "SearchTimeline" = true /\ 1500 <= 1900 /\
  fst (lock_returning order_by_username 1500 "SearchTimeline"
         (lock_until 1000 "u1" "SearchTimeline" 1900 1
            [sample_row "u1" true ∅; sample_row "u2" true ∅]))
  = Some (lease_row 1500 "SearchTimeline" (sample_row "u2" true ∅))
  /\ ci_eq "u2" "u1" = false.
Proof.
  split; [reflexivity|]. split; [lia|]. split; [vm_compute; reflexivity|].
  pose proof (lock_until_blocks_lease order_by_username 1000 1500 "u1" "SearchTimeline"
                1900 1 [sample_row "u1" true ∅; sample_row "u2" true ∅]
                eq_refl ltac:(lia)) as H.
  vm_compute in H. exact H.
Defined.

(** ** [delete_accounts] and [delete_inactive] *)

Lemma remove_dups_nil (l : list string) : remove_dups l = [] -> l = [].
Proof.
  destruct l as [|x l]; [done|]. intros H. exfalso.
  assert (x ∈ remove_dups (x :: l)) as Hx by (apply elem_of_remove_dups; left).
  rewrite H in Hx. apply not_elem_of_nil in Hx. exact Hx.
Qed.

Lemma in_names_remove_dups (names : list string) (r : row) :
  in_names (remove_dups names) r = in_names names r.
Proof.
  unfold in_names. apply eq_true_iff_eq. rewrite !existsb_exists.
  split; intros (x & Hx & E); exists x; split; try exact E;
    apply list_elem_of_In; apply list_elem_of_In in Hx.
  - rewrite elem_of_remove_dups in Hx. exact Hx.
  - rewrite elem_of_remove_dups. exact Hx.
Qed.

(** [delete_accounts(usernames)] removes exactly the rows named in the
    list (up to case): afterwards none of the names is found, every other
    row is kept, and no row is added; an empty list changes nothing. *)
Theorem delete_accounts_spec (names : list string) (rs : list row) :
  (forall u, In u names -> fetch_by_username u (delete_accounts names rs) = None)
  /\ (forall r, In r rs -> in_names names r = false -> In r (delete_accounts names rs))
  /\ (forall r, In r (delete_accounts names rs) -> In r rs /\ in_names names r = false)
  /\ delete_accounts [] rs = rs.
Proof.
  unfold delete_accounts.
  destruct (remove_dups names) as [|u0 us] eqn:Ed.
  - apply remove_dups_nil in Ed as ->. repeat split; simpl; auto; tauto.
  - rewrite <- Ed. split; [|split; [|split; [|reflexivity]]].
    + intros u Hu. apply fetch_by_username_None, Forall_forall.
      intros r Hr. apply filter_In in Hr as [_ Hr].
      rewrite in_names_remove_dups in Hr. apply negb_true_iff in Hr.
      unfold in_names in Hr. destruct (ci_eq (username r) u) eqn:E; [|reflexivity].
      assert (existsb (ci_eq (username r)) names = true) as Hc
        by (apply existsb_exists; eauto).
      congruence.
    + intros r Hin Hn. apply filter_In. split; [exact Hin|].
      rewrite in_names_remove_dups, Hn. reflexivity.
    + intros r Hr. apply filter_In in Hr as [Hr Hn]. split; [exact Hr|].
      rewrite in_names_remove_dups in Hn. apply negb_true_iff in Hn. exact Hn.
Qed.

Lemma filter_eligible_active (now : Z) (queue : string) (rs : list row) :
  List.filter (eligible now queue) (List.filter active rs)
  = List.filter (eligible now queue) rs.
Proof.
  induction rs as [|r rs IH]; simpl; [done|].
  destruct (active r) eqn:Ea; simpl.
  - rewrite IH. reflexivity.
  - replace (eligible now queue r) with false
      by (unfold eligible; rewrite Ea; reflexivity).
    exact IH.
Qed.

Lemma filter_active_update_where (u : string) (f : row -> row) (rs : list row) :
  (forall r, active (f r) = active r) ->
  List.filter active (update_where u f rs) = update_where u f (List.filter active rs).
Proof.
  intros Hf. unfold update_where. induction rs as [|r rs IH]; simpl; [done|].
  destruct (ci_eq (username r) u) eqn:E; rewrite ?Hf; destruct (active r); simpl;
    rewrite ?E, IH; reflexivity.
Qed.

(** With unique usernames, [delete_inactive()] does not change what a
    lease returns, and deleting before or after the lease gives the same
    table. *)
Theorem delete_inactive_lease (ord : row -> row -> bool) (now : Z) (queue : string)
    (rs : list row) :
  unique_usernames rs ->
  lock_returning ord now queue (delete_inactive rs)
  = (fst (lock_returning ord now queue rs), delete_inactive (snd (lock_returning ord now queue rs))).
Proof.
  intros Hu. unfold lock_returning, delete_inactive.
  rewrite filter_eligible_active.
  destruct (pick_first ord (List.filter (eligible now queue) rs)) as [c|] eqn:E;
    [|reflexivity].
  simpl. apply pick_first_In in E. apply filter_In in E as [Hin He].
  assert (active c = true) as Hac by (unfold eligible in He; destruct (active c); done).
  assert (In c (List.filter active rs)) as Hin' by (apply filter_In; auto).
  rewrite !(fetch_update_where _ (lease_row now queue) _ (fun r => eq_refl)).
  rewrite (fetch_unique rs c Hu Hin).
  rewrite (fetch_unique (List.filter active rs) c (NoDup_map_filter _ _ _ Hu) Hin').
  rewrite (filter_active_update_where _ (lease_row now queue) _ (fun r => eq_refl)).
  reflexivity.
Qed.

Lemma delete_inactive_lease_witness :
  unique_usernames [sample_row "u1" false ∅; sample_row "u2" true ∅] /\
  lock_returning order_by_username 10 "q" (delete_inactive [sample_row "u1" false ∅; sample_row "u2" true ∅])
  = (fst (lock_returning order_by_username 10 "q" [sample_row "u1" false ∅; sample_row "u2" true ∅]),
     delete_inactive (snd (lock_returning order_by_username 10 "q"
                             [sample_row "u1" false ∅; sample_row "u2" true ∅]))).
Proof.
  assert (unique_usernames [sample_row "u1" false ∅; sample_row "u2" true ∅]) as Hu.
  { unfold unique_usernames. simpl. constructor.
    - intros H. apply list_elem_of_In in H. simpl in H. destruct H as [H|[]]. discriminate.
    - apply NoDup_singleton. }
  split; [exact Hu|]. apply delete_inactive_lease. exact Hu.
Defined.

(** ** [relogin] and [relogin_failed] *)

(** [relogin] with at least one username always fails when the user
    agent, read as a column name, names no column of [accounts] (as a
    browser user agent never does): the UPDATE raises, no row changes and
    [login_all] is never reached. *)
Theorem relogin_nonempty_fails (ua : string)
    (login_all : list string -> list row -> res (list row))
    (column_text : string -> row -> option string) (names : list string) (rs : list row) :
  names <> [] -> ~ In (substring 0 63 ua) accounts_columns ->
  exists e, relogin ua login_all column_text names rs = Err e.
Proof.
  intros Hne Hcol. unfold relogin.
  destruct (remove_dups names) as [|u0 us] eqn:Ed.
  { apply remove_dups_nil in Ed. contradiction. }
  destruct (existsb _ (list_ascii_of_string ua)); [eauto|].
  replace (existsb (String.eqb (substring 0 63 ua)) accounts_columns) with false; [eauto|].
  symmetry. apply not_true_iff_false. intros H. apply Hcol, existsb_eqb_In, H.
Qed.

Definition safari_sample : string :=
  "Mozilla/5.0 (Macintosh; Intel Mac OS X 10_15_7) AppleWebKit/605.1.15 (KHTML, like Gecko) Version/17.0 Safari/605.1.15".

Lemma relogin_nonempty_fails_witness :
  exists e, relogin safari_sample (fun _ rs => Ok rs) (fun _ _ => None) ["user"]
              [sample_row "user" false ∅] = Err e.
Proof.
  apply relogin_nonempty_fails.
  - discriminate.
  - vm_compute. intros H. repeat destruct H as [H|H]; try discriminate. exact H.
Defined.

(** [relogin_failed()] returns with the table unchanged when no account
    is both inactive and carrying an error message; as soon as one is, it
    raises (the fetched rows are indexed by a column name) and nothing
    changes. *)
Theorem relogin_failed_spec (ua : string)
    (login_all : list string -> list row -> res (list row))
    (column_text : string -> row -> option string) (rs : list row) :
  (Forall (fun r => active r = true \/ error_msg r = None) rs
   /\ relogin_failed ua login_all column_text rs = Ok rs)
  \/ ((exists r, In r rs /\ active r = false /\ error_msg r <> None)
      /\ exists e, relogin_failed ua login_all column_text rs = Err e).
Proof.
  unfold relogin_failed. destruct (failed_rows rs) as [|r0 more] eqn:E.
  - left. split; [|reflexivity].
    apply Forall_forall. intros r Hr.
    destruct (active r) eqn:Ha; [left; reflexivity|].
    destruct (error_msg r) as [m|] eqn:Hm; [|right; reflexivity].
    assert (In r (failed_rows rs)) as Hin.
    { apply filter_In. split; [exact Hr|]. rewrite Ha, Hm. reflexivity. }
    rewrite E in Hin. destruct Hin.
  - right. split; [|eauto].
    assert (In r0 (failed_rows rs)) as Hin by (rewrite E; left; reflexivity).
    apply filter_In in Hin as [Hin Hf]. apply andb_prop in Hf as [Ha Hm].
    exists r0. split; [exact Hin|]. split; [apply negb_true_iff; exact Ha|].
    apply bool_decide_eq_true in Hm. destruct Hm as [m Hm]. congruence.
Qed.

(** ** [stats] *)

Lemma filter_length_split {A} (p : A -> bool) (l : list A) :
  (length (List.filter p l) + length (List.filter (fun x => negb (p x)) l))%nat = length l.
Proof. induction l as [|a l IH]; simpl; [done|]. destruct (p a); simpl; lia. Qed.

Lemma filter_true_length {A} (l : list A) : length (List.filter (fun _ => true) l) = length l.
Proof. induction l as [|a l IH]; simpl; [done|]. rewrite IH. reflexivity. Qed.

Lemma length_append_str (s t : string) :
  String.length (s +:+ t) = (String.length s + String.length t)%nat.
Proof. induction s as [|c s IH]; simpl; [reflexivity|]. rewrite IH. reflexivity. Qed.

Lemma substring_0_long (n : nat) (s : string) :
  (String.length s <= n)%nat -> substring 0 n s = s.
Proof.
  revert n. induction s as [|c s IH]; intros n H; destruct n; simpl in *;
    try reflexivity; try lia.
  rewrite IH by lia. reflexivity.
Qed.

Lemma NoDup_map_inj {A B} (f : A -> B) (l : list A) :
  (forall x y, f x = f y -> x = y) -> NoDup l -> NoDup (map f l).
Proof.
  intros Hf. induction 1 as [|a l Ha Hnd IH]; simpl; constructor; [|exact IH].
  intros Hin. apply Ha. apply list_elem_of_In in Hin. apply in_map_iff in Hin as (x & Hx & Hin).
  apply Hf in Hx. subst x. apply list_elem_of_In. exact Hin.
Qed.

Lemma stats_columns_keys (now : Z) (rs : list row) :
  map fst (stats_columns now rs)
  = ["total"; "active"; "inactive"] ++ map (fun q => "locked_" +:+ q) (elements (gql_ops rs)).
Proof. unfold stats_columns. rewrite map_app, map_map. reflexivity. Qed.

(** When every lock key is a plain name of at most 56 bytes, no column
    alias is cut, the aliases are distinct and [stats()] returns the
    columns as they are. *)
Lemma pool_stats_short (now : Z) (rs : list row) :
  forallb (fun q => all_ident q && (String.length q <=? 56)%nat) (elements (gql_ops rs)) = true ->
  pool_stats now rs = Ok (list_to_map (stats_columns now rs)).
Proof.
  intros H. rewrite forallb_forall in H.
  assert (forall kv, In kv (stats_columns now rs) -> pg_ident kv.1 = kv.1) as Hid.
  { intros kv Hkv. unfold pg_ident. apply substring_0_long.
    unfold stats_columns in Hkv. apply in_app_or in Hkv as [Hkv|Hkv].
    - destruct Hkv as [<-|[<-|[<-|[]]]]; simpl; lia.
    - apply in_map_iff in Hkv as (q & <- & Hq). specialize (H q Hq).
      apply andb_prop in H as [_ H]. apply Nat.leb_le in H.
      cbn [fst]. rewrite length_append_str. simpl. lia. }
  unfold pool_stats.
  rewrite (map_ext_in (fun kv => pg_ident kv.1) fst) by exact Hid.
  rewrite (map_ext_in (fun kv => (pg_ident kv.1, kv.2)) (fun kv => kv))
    by (intros [k v] Hkv; pose proof (Hid (k, v) Hkv) as Hk; cbn in Hk |- *; rewrite Hk; reflexivity).
  rewrite map_id.
  rewrite bool_decide_eq_true_2; [reflexivity|].
  rewrite stats_columns_keys. apply list.NoDup_app. split; [|split].
  - apply (bool_decide_unpack _). vm_compute. exact I.
  - intros x Hx Hy. apply list_elem_of_In in Hx, Hy.
    apply in_map_iff in Hy as (q & <- & _).
    destruct Hx as [Hx|[Hx|[Hx|[]]]]; discriminate Hx.
  - apply NoDup_map_inj; [exact (String.app_inj "locked_")|]. apply NoDup_elements.
Qed.

(** The counters of [stats()]: when the lock keys are plain names of at
    most 56 bytes, [stats()] succeeds, [total] is the number of accounts
    and is the sum of [active] and [inactive]. *)
Theorem pool_stats_totals (now : Z) (rs : list row) :
  forallb (fun q => all_ident q && (String.length q <=? 56)%nat) (elements (gql_ops rs)) = true ->
  exists m, pool_stats now rs = Ok m
  /\ m !! "total" = Some (Z.of_nat (length rs))
  /\ exists a i, m !! "active" = Some a
                 /\ m !! "inactive" = Some i
                 /\ a + i = Z.of_nat (length rs).
Proof.
  intros H. rewrite (pool_stats_short now rs H).
  eexists. split; [reflexivity|].
  unfold stats_columns. cbn [app]. rewrite !list_to_map_cons.
  split.
  - rewrite lookup_insert_eq. unfold count_rows. rewrite filter_true_length. reflexivity.
  - exists (count_rows active rs), (count_rows (fun r => negb (active r)) rs).
    split; [rewrite lookup_insert_ne by discriminate; apply lookup_insert_eq|].
    split; [rewrite !lookup_insert_ne by discriminate; apply lookup_insert_eq|].
    unfold count_rows. rewrite <- (filter_length_split active rs). lia.
Qed.

Definition stats_sample : list row :=
  [sample_row "u1" true {[ "SearchTimeline" := 2000 ]};
   sample_row "u2" false {[ "UserByScreenName" := 500 ]}].

Lemma pool_stats_totals_witness :
  forallb (fun q => all_ident q && (String.length q <=? 56)%nat)
    (elements (gql_ops stats_sample)) = true
  /\ exists m, pool_stats 1000 stats_sample = Ok m
  /\ m !! "total" = Some (Z.of_nat (length stats_sample))
  /\ exists a i, m !! "active" = Some a
                 /\ m !! "inactive" = Some i
                 /\ a + i = Z.of_nat (length stats_sample).
Proof.
  assert (H : forallb (fun q => all_ident q && (String.length q <=? 56)%nat)
                (elements (gql_ops stats_sample)) = true) by (vm_compute; reflexivity).
  split; [exact H|]. exact (pool_stats_totals 1000 stats_sample H).
Defined.

Lemma list_to_map_map_lookup (f : string -> string) (g : string -> Z) (l : list string)
    (q : string) :
  (forall x y, f x = f y -> x = y) ->
  (list_to_map (map (fun x => (f x, g x)) l) : gmap string Z) !! f q
  = if bool_decide (q ∈ l) then Some (g q) else None.
Proof.
  intros Hf. induction l as [|a l IH]; cbn [map]; [reflexivity|].
  rewrite list_to_map_cons.
  destruct (decide (a = q)) as [->|Hne].
  - rewrite lookup_insert_eq. rewrite bool_decide_eq_true_2; [reflexivity|].
    apply elem_of_cons. left. reflexivity.
  - rewrite lookup_insert_ne by (intros H; apply Hne, Hf, H).
    rewrite IH. replace (bool_decide (q ∈ a :: l)) with (bool_decide (q ∈ l)); [reflexivity|].
    apply bool_decide_ext. rewrite elem_of_cons. split; [tauto|].
    intros [H|H]; [congruence|exact H].
Qed.

Lemma gql_ops_spec (rs : list row) (q : string) :
  q ∈ gql_ops rs <-> exists r, In r rs /\ is_Some (locks r !! q).
Proof.
  unfold gql_ops. rewrite elem_of_union_list. split.
  - intros (X & HX & Hq). apply list_elem_of_In, in_map_iff in HX as (r & <- & Hr).
    exists r. split; [exact Hr|]. apply elem_of_dom. exact Hq.
  - intros (r & Hr & Hq). exists (dom (locks r)). split.
    + apply list_elem_of_In, in_map_iff. eauto.
    + apply elem_of_dom. exact Hq.
Qed.

(** When the lock keys are plain names of at most 56 bytes, [stats()]
    succeeds and reports [locked_<queue>] exactly for the queues that are
    a key of some account's locks (expired or not, active account or not);
    its value counts the accounts, active or not, whose lock for that
    queue is still in the future. *)
Theorem pool_stats_locked (now : Z) (rs : list row) (q : string) :
  forallb (fun q => all_ident q && (String.length q <=? 56)%nat) (elements (gql_ops rs)) = true ->
  exists m, pool_stats now rs = Ok m
  /\ m !! ("locked_" +:+ q)
     = if existsb (fun r => bool_decide (is_Some (locks r !! q))) rs
       then Some (count_rows (locked_at now q) rs) else None.
Proof.
  intros H. rewrite (pool_stats_short now rs H).
  eexists. split; [reflexivity|].
  unfold stats_columns. cbn [app]. rewrite !list_to_map_cons.
  rewrite !lookup_insert_ne by discriminate.
  rewrite (list_to_map_map_lookup (fun x => "locked_" +:+ x)
             (fun x => count_rows (locked_at now x) rs)).
  2:{ intros x y Hxy. exact (String.app_inj "locked_" x y Hxy). }
  replace (existsb _ rs) with (bool_decide (q ∈ elements (gql_ops rs))); [reflexivity|].
  apply eq_true_iff_eq. rewrite bool_decide_eq_true, existsb_exists.
  rewrite elem_of_elements, gql_ops_spec.
  split; intros (r & Hr & Hs); exists r; split; try exact Hr.
  - apply bool_decide_eq_true. exact Hs.
  - apply bool_decide_eq_true in Hs. exact Hs.
Qed.

Lemma pool_stats_locked_witness :
  forallb (fun q => all_ident q && (String.length q <=? 56)%nat)
    (elements (gql_ops stats_sample)) = true
  /\ exists m, pool_stats 1000 stats_sample = Ok m
  /\ m !! ("locked_" +:+ "SearchTimeline")
     = if existsb (fun r => bool_decide (is_Some (locks r !! "SearchTimeline"))) stats_sample
       then Some (count_rows (locked_at 1000 "SearchTimeline") stats_sample) else None.
Proof.
  assert (H : forallb (fun q => all_ident q && (String.length q <=? 56)%nat)
                (elements (gql_ops stats_sample)) = true) by (vm_compute; reflexivity).
  split; [exact H|]. exact (pool_stats_locked 1000 stats_sample "SearchTimeline" H).
Defined.

(** Two lock keys whose [locked_<key>] aliases agree on their first 63
    bytes make [stats()] raise: the SELECT returns two columns with the
    same name and [dict(rs._mapping)] refuses it. *)
Theorem pool_stats_alias_collision (now : Z) (rs : list row) (q1 q2 : string) :
  q1 ∈ gql_ops rs -> q2 ∈ gql_ops rs -> q1 <> q2 ->
  pg_ident ("locked_" +:+ q1) = pg_ident ("locked_" +:+ q2) ->
  exists e, pool_stats now rs = Err e.
Proof.
  intros H1 H2 Hne Hid. unfold pool_stats.
  rewrite bool_decide_eq_false_2; [eauto|].
  intros Hnd.
  assert (forall q, q ∈ gql_ops rs ->
            In ("locked_" +:+ q, count_rows (locked_at now q) rs) (stats_columns now rs))
    as Hin.
  { intros q Hq. unfold stats_columns. apply in_or_app. right.
    apply in_map_iff. exists q. split; [reflexivity|].
    apply list_elem_of_In, elem_of_elements. exact Hq. }
  pose proof (NoDup_map_same _ _ _ _ Hnd (Hin q1 H1) (Hin q2 H2) Hid) as Heq.
  injection Heq as Heq _. apply Hne. exact Heq.
Qed.

Definition long_key_x : string :=
  "aaaaaaaaaaaaaaaaaaaaaaaaaaaaaaaaaaaaaaaaaaaaaaaaaaaaaaaax".
Definition long_key_y : string :=
  "aaaaaaaaaaaaaaaaaaaaaaaaaaaaaaaaaaaaaaaaaaaaaaaaaaaaaaaay".

Lemma pool_stats_alias_collision_witness :
  long_key_x ∈ gql_ops [sample_row "u1" true {[ long_key_x := 2000; long_key_y := 2000 ]}]
  /\ long_key_y ∈ gql_ops [sample_row "u1" true {[ long_key_x := 2000; long_key_y := 2000 ]}]
  /\ long_key_x <> long_key_y
  /\ pg_ident ("locked_" +:+ long_key_x) = pg_ident ("locked_" +:+ long_key_y)
  /\ exists e, pool_stats 1000 [sample_row "u1" true {[ long_key_x := 2000; long_key_y := 2000 ]}]
               = Err e.
Proof.
  assert (H1 : long_key_x ∈ gql_ops [sample_row "u1" true {[ long_key_x := 2000; long_key_y := 2000 ]}])
    by (apply (bool_decide_unpack _); vm_compute; exact I).
  assert (H2 : long_key_y ∈ gql_ops [sample_row "u1" true {[ long_key_x := 2000; long_key_y := 2000 ]}])
    by (apply (bool_decide_unpack _); vm_compute; exact I).
  assert (H3 : long_key_x <> long_key_y) by (vm_compute; discriminate).
  assert (H4 : pg_ident ("locked_" +:+ long_key_x) = pg_ident ("locked_" +:+ long_key_y))
    by (vm_compute; reflexivity).
  split; [exact H1|]. split; [exact H2|]. split; [exact H3|]. split; [exact H4|].
  exact (pool_stats_alias_collision 1000 _ _ _ H1 H2 H3 H4).
Defined.

(** ** [next_available_at] *)





(** ** Proxy registry: [ensure], [get_active], [mark_failed], [load_from_file] *)

Definition has_url (u : string) (ps : list Proxies.proxy) : bool :=
  existsb (fun p => String.eqb (Proxies.url p) u) ps.

Lemma has_url_get_proxy_id (u : string) (ps : list Proxies.proxy) :
  has_url u ps = true <-> Proxies.get_proxy_id u ps <> None.
Proof.
  unfold has_url, Proxies.get_proxy_id. rewrite existsb_exists. split.
  - intros (p & Hp & Hu) H.
    destruct (find (fun p => String.eqb (Proxies.url p) u) ps) eqn:Ef; [discriminate|].
    rewrite (find_none _ _ Ef p Hp) in Hu. discriminate.
  - destruct (find (fun p => String.eqb (Proxies.url p) u) ps) as [p|] eqn:Ef;
      [|intros H; contradiction].
    intros _. apply find_some in Ef. exists p. exact Ef.
Qed.

Lemma has_url_mono (u : string) (ps ps' : list Proxies.proxy) :
  (forall p, In p ps -> In p ps') -> has_url u ps = true -> has_url u ps' = true.
Proof.
  unfold has_url. rewrite !existsb_exists. intros Hsub (p & Hp & Hu). eauto.
Qed.

Lemma max_id_bound (ps : list Proxies.proxy) (q : Proxies.proxy) :
  In q ps -> Proxies.id q <= fold_right (fun p m => Z.max (Proxies.id p) m) 0 ps.
Proof.
  induction ps as [|p ps IH]; simpl; [tauto|].
  intros [<-|Hq]; [lia|]. specialize (IH Hq). lia.
Qed.

Lemma ensure_present (u : string) (ps : list Proxies.proxy) :
  has_url u ps = true -> Proxies.ensure u ps = ps.
Proof. unfold Proxies.ensure. fold (has_url u ps). intros ->. reflexivity. Qed.

Lemma ensure_sub (u : string) (ps : list Proxies.proxy) (p : Proxies.proxy) :
  In p ps -> In p (Proxies.ensure u ps).
Proof.
  unfold Proxies.ensure. destruct (existsb _ ps); [tauto|].
  intros H. apply in_or_app. left. exact H.
Qed.

Lemma ensure_has_url (u : string) (ps : list Proxies.proxy) :
  has_url u (Proxies.ensure u ps) = true.
Proof.
  destruct (has_url u ps) eqn:E; [rewrite ensure_present by exact E; exact E|].
  unfold Proxies.ensure. fold (has_url u ps). rewrite E.
  unfold has_url. rewrite existsb_app. simpl. rewrite String.eqb_refl, orb_true_r.
  reflexivity.
Qed.

Lemma NoDup_snoc {A} (l : list A) (x : A) :
  NoDup l -> ~ In x l -> NoDup (l ++ [x]).
Proof.
  induction l as [|a l IH]; simpl; intros Hnd Hx.
  - apply NoDup_singleton.
  - inversion Hnd as [|? ? Ha Hnd']; subst. constructor.
    + rewrite list_elem_of_In. rewrite list_elem_of_In in Ha.
      intros H. apply in_app_or in H as [H|[H|[]]]; [tauto|]. subst. tauto.
    + apply IH; tauto.
Qed.

Lemma get_proxy_id_url (u : string) (i : Z) (ps : list Proxies.proxy) :
  NoDup (map Proxies.id ps) -> Proxies.get_proxy_id u ps = Some i ->
  Proxies.get_url i ps = Some u.
Proof.
  unfold Proxies.get_proxy_id, Proxies.get_url. intros Hnd.
  destruct (find (fun p => String.eqb (Proxies.url p) u) ps) as [p|] eqn:Ef;
    [|discriminate].
  intros H. injection H as <-. apply find_some in Ef as [Hp Hu].
  apply String.eqb_eq in Hu.
  destruct (find (fun q => Proxies.id q =? Proxies.id p) ps) as [q|] eqn:Eg.
  - apply find_some in Eg as [Hq Hid]. apply Z.eqb_eq in Hid.
    rewrite (NoDup_map_same Proxies.id ps q p Hnd Hq Hp Hid). simpl. congruence.
  - pose proof (find_none _ _ Eg p Hp) as Hf. simpl in Hf.
    rewrite Z.eqb_refl in Hf. discriminate.
Qed.

Lemma fold_ensure_sub (urls : list string) (ps : list Proxies.proxy) (p : Proxies.proxy) :
  In p ps -> In p (fold_left (fun acc u => Proxies.ensure u acc) urls ps).
Proof.
  revert ps. induction urls as [|u urls IH]; simpl; [tauto|].
  intros ps Hp. apply IH, ensure_sub, Hp.
Qed.

Lemma fold_ensure_has_url (urls : list string) (ps : list Proxies.proxy) (u : string) :
  In u urls \/ has_url u ps = true ->
  has_url u (fold_left (fun acc v => Proxies.ensure v acc) urls ps) = true.
Proof.
  revert ps. induction urls as [|v urls IH]; simpl; intros ps H.
  - destruct H as [[]|H]. exact H.
  - apply IH. destruct H as [[<-|H]|H].
    + right. apply ensure_has_url.
    + left. exact H.
    + right. apply (has_url_mono u ps); [apply ensure_sub|exact H].
Qed.

Lemma fold_ensure_all_present (urls : list string) (ps : list Proxies.proxy) :
  (forall u, In u urls -> has_url u ps = true) ->
  fold_left (fun acc u => Proxies.ensure u acc) urls ps = ps.
Proof.
  induction urls as [|u urls IH]; simpl; intros H; [reflexivity|].
  rewrite ensure_present by (apply H; left; reflexivity).
  apply IH. intros v Hv. apply H. right. exact Hv.
Qed.

Lemma proxies_load_fold (content : string) (ps : list Proxies.proxy) :
  Proxies.load_from_file content ps
  = fold_left (fun acc u => Proxies.ensure u acc) (stripped_lines (splitlines content)) ps.
Proof. unfold Proxies.load_from_file. destruct (stripped_lines _); reflexivity. Qed.

(** [ensure(url)] never changes or removes a stored proxy (a failed proxy
    stays failed), leaves the table as it is when the URL is already
    there, and otherwise adds one active proxy for the URL with no
    failures and an id no other proxy has; the URL then has an id, and a
    second call changes nothing. *)
Theorem ensure_spec (u : string) (ps : list Proxies.proxy) :
  (forall p, In p ps -> In p (Proxies.ensure u ps))
  /\ (exists i, Proxies.get_proxy_id u (Proxies.ensure u ps) = Some i)
  /\ (Proxies.get_proxy_id u ps <> None -> Proxies.ensure u ps = ps)
  /\ (Proxies.get_proxy_id u ps = None ->
      exists p, Proxies.ensure u ps = ps ++ [p]
        /\ Proxies.url p = u /\ Proxies.active p = true
        /\ Proxies.fail_count p = 0 /\ Proxies.last_failed p = None
        /\ forall q, In q ps -> Proxies.id q <> Proxies.id p)
  /\ Proxies.ensure u (Proxies.ensure u ps) = Proxies.ensure u ps.
Proof.
  split; [intros p; apply ensure_sub|].
  split.
  { pose proof (ensure_has_url u ps) as H. apply has_url_get_proxy_id in H.
    destruct (Proxies.get_proxy_id u (Proxies.ensure u ps)); [eauto|congruence]. }
  split; [intros H; apply ensure_present, has_url_get_proxy_id, H|].
  split; [|apply ensure_present, ensure_has_url].
  intros Hnone. unfold Proxies.ensure. fold (has_url u ps).
  destruct (has_url u ps) eqn:E.
  { apply has_url_get_proxy_id in E. contradiction. }
  eexists. split; [reflexivity|]. cbn.
  split; [reflexivity|]. split; [reflexivity|]. split; [reflexivity|].
  split; [reflexivity|].
  intros q Hq. pose proof (max_id_bound ps q Hq). lia.
Qed.

(** With unique ids, [ensure(url)] keeps the ids unique, and the id it
    gives the URL maps back to the URL through [get_url]. *)
Theorem ensure_roundtrip (u : string) (ps : list Proxies.proxy) :
  NoDup (map Proxies.id ps) ->
  NoDup (map Proxies.id (Proxies.ensure u ps))
  /\ exists i, Proxies.get_proxy_id u (Proxies.ensure u ps) = Some i
               /\ Proxies.get_url i (Proxies.ensure u ps) = Some u.
Proof.
  intros Hnd.
  assert (NoDup (map Proxies.id (Proxies.ensure u ps))) as Hnd'.
  { unfold Proxies.ensure. destruct (existsb _ ps); [exact Hnd|].
    rewrite map_app. apply NoDup_snoc; [exact Hnd|]. cbn.
    intros H. apply in_map_iff in H as (q & Hq & Hin).
    pose proof (max_id_bound ps q Hin). lia. }
  split; [exact Hnd'|].
  pose proof (ensure_has_url u ps) as H. apply has_url_get_proxy_id in H.
  destruct (Proxies.get_proxy_id u (Proxies.ensure u ps)) as [i|] eqn:Ei; [|congruence].
  exists i. split; [reflexivity|]. apply get_proxy_id_url; assumption.
Qed.

Lemma ensure_roundtrip_witness :
  NoDup (map Proxies.id (Proxies.ensure "http://b:2" [sample_proxy 1 "http://a:1"]))
  /\ exists i, Proxies.get_proxy_id "http://b:2"
                 (Proxies.ensure "http://b:2" [sample_proxy 1 "http://a:1"]) = Some i
               /\ Proxies.get_url i
                    (Proxies.ensure "http://b:2" [sample_proxy 1 "http://a:1"])
                  = Some "http://b:2".
Proof.
  apply ensure_roundtrip. apply (bool_decide_unpack _). vm_compute. exact I.
Defined.

(** [get_active()] gives nothing exactly when every proxy is inactive;
    what it gives is the id and URL of one active proxy. *)
Theorem get_active_spec (seed : nat) (ps : list Proxies.proxy) :
  (Proxies.get_active seed ps = None <-> Forall (fun p => Proxies.active p = false) ps)
  /\ forall i u, Proxies.get_active seed ps = Some (i, u) ->
     exists p, In p ps /\ Proxies.active p = true /\ Proxies.id p = i /\ Proxies.url p = u.
Proof.
  split.
  - split.
    + intros H. apply Forall_forall. intros p Hp.
      destruct (Proxies.active p) eqn:Ha; [|reflexivity]. exfalso.
      assert (List.filter Proxies.active ps <> []) as Hne.
      { intros E. assert (In p (List.filter Proxies.active ps)) as Hin
          by (apply filter_In; auto). rewrite E in Hin. exact Hin. }
      destruct (get_active_nonempty seed ps Hne) as [x Hx]. congruence.
    + intros H. unfold Proxies.get_active.
      replace (List.filter Proxies.active ps) with (@nil Proxies.proxy); [reflexivity|].
      symmetry. rewrite Forall_forall in H.
      induction ps as [|p ps IH]; [reflexivity|]. simpl.
      rewrite (H p (or_introl eq_refl)). apply IH. intros x Hx. apply H. right. exact Hx.
  - intros i u. unfold Proxies.get_active.
    destruct (List.filter Proxies.active ps) as [|p0 act] eqn:E; [discriminate|].
    destruct (nth_error (p0 :: act) (seed mod length (p0 :: act))) as [p|] eqn:En;
      [|discriminate].
    intros H. injection H as <- <-. exists p.
    apply nth_error_In in En. rewrite <- E in En. apply filter_In in En as [? ?].
    auto.
Qed.

(** After [mark_failed(proxy_id)], [get_active()] never returns that
    proxy; ids and URLs are unchanged, the other proxies are untouched,
    and the proxy is stored inactive with one more failure and the time
    of the failure. *)
Theorem mark_failed_spec (seed : nat) (ts pid : Z) (ps : list Proxies.proxy) :
  (forall u, Proxies.get_active seed (Proxies.mark_failed ts pid ps) <> Some (pid, u))
  /\ map Proxies.id (Proxies.mark_failed ts pid ps) = map Proxies.id ps
  /\ map Proxies.url (Proxies.mark_failed ts pid ps) = map Proxies.url ps
  /\ (forall p, In p ps -> Proxies.id p <> pid -> In p (Proxies.mark_failed ts pid ps))
  /\ (forall p, In p ps -> Proxies.id p = pid ->
      In (Proxies.mk_proxy pid (Proxies.url p) false (Proxies.fail_count p + 1) (Some ts))
         (Proxies.mark_failed ts pid ps)).
Proof.
  split.
  { intros u H. apply get_active_Some in H as (p & Hp & Ha & Hid).
    pose proof (is_active_intro pid _ p Hp Ha Hid) as Hact.
    rewrite mark_failed_inactive in Hact. discriminate. }
  unfold Proxies.mark_failed. rewrite !map_map.
  split; [apply map_ext; intros p; destruct (Proxies.id p =? pid) eqn:E;
          [apply Z.eqb_eq in E; simpl; reflexivity|reflexivity]|].
  split; [apply map_ext; intros p; destruct (Proxies.id p =? pid); reflexivity|].
  split.
  - intros p Hp Hid. apply in_map_iff. exists p. split; [|exact Hp].
    apply Z.eqb_neq in Hid. rewrite Hid. reflexivity.
  - intros p Hp Hid. apply in_map_iff. exists p. split; [|exact Hp].
    rewrite Hid, Z.eqb_refl. reflexivity.
Qed.

(** [load_from_file(filepath)] gives every URL of the file an id, keeps
    every stored proxy as it was, and loading the same file again changes
    nothing. *)
Theorem proxies_load_spec (content : string) (ps : list Proxies.proxy) :
  (forall u, In u (stripped_lines (splitlines content)) ->
   exists i, Proxies.get_proxy_id u (Proxies.load_from_file content ps) = Some i)
  /\ (forall p, In p ps -> In p (Proxies.load_from_file content ps))
  /\ Proxies.load_from_file content (Proxies.load_from_file content ps)
     = Proxies.load_from_file content ps.
Proof.
  rewrite !proxies_load_fold. split; [|split].
  - intros u Hu.
    pose proof (fold_ensure_has_url _ ps u (or_introl Hu)) as H.
    apply has_url_get_proxy_id in H.
    destruct (Proxies.get_proxy_id u _); [eauto|congruence].
  - intros p Hp. apply fold_ensure_sub, Hp.
  - apply fold_ensure_all_present. intros u Hu.
    apply fold_ensure_has_url. left. exact Hu.
Qed.

(** ** [Account.make_client] *)

(** The client [make_client(proxy)] builds: the explicit proxy, else
    [TWS_PROXY], else the account's; the account's cookies; and, whatever
    the stored headers hold (in any case of letters), the fixed
    user-agent, content-type, authorization and x-twitter headers, with
    the CSRF header taken from the [ct0] cookie when there is one. *)
Theorem make_client_headers (httpx_default_headers : gmap string string) (r : row)
    (account_proxy env_proxy proxy : option string) :
  let c := make_client httpx_default_headers r account_proxy env_proxy proxy in
  client_proxy c = match proxy, env_proxy with
                   | Some x, _ => Some x
                   | None, Some x => Some x
                   | None, None => account_proxy
                   end
  /\ client_cookies c = cookies r
  /\ client_headers c !! "user-agent" = Some (user_agent r)
  /\ client_headers c !! "content-type" = Some "application/json"
  /\ client_headers c !! "authorization" = Some TOKEN
  /\ client_headers c !! "x-twitter-active-user" = Some "yes"
  /\ client_headers c !! "x-twitter-client-language" = Some "en"
  /\ client_headers c !! "x-csrf-token"
     = match cookies r !! "ct0" with
       | Some v => Some v
       | None => map_fold set_header httpx_default_headers (headers r) !! "x-csrf-token"
       end.
Proof.
  unfold make_client, set_header. cbn zeta.
  change (lower "user-agent") with "user-agent".
  change (lower "content-type") with "content-type".
  change (lower "authorization") with "authorization".
  change (lower "x-twitter-active-user") with "x-twitter-active-user".
  change (lower "x-twitter-client-language") with "x-twitter-client-language".
  change (lower "x-csrf-token") with "x-csrf-token".
  split; [destruct proxy, env_proxy; reflexivity|].
  split; [reflexivity|].
  destruct (cookies r !! "ct0") as [v|]; cbn [client_headers];
    repeat split; simplify_map_eq; reflexivity.
Qed.

(** ** [db_pg.check_migrations] *)

Lemma check_calls_checked (st : mig_state) (ps : list probe) :
  migration_checked st = true ->
  check_calls st ps
  = repeat (if migrations_exist st then Ok tt else Err migration_error) (length ps).
Proof.
  intros H. induction ps as [|p ps IH]; [reflexivity|].
  simpl. unfold check_migrations at 1. rewrite H. rewrite IH. reflexivity.
Qed.

(** Only the first check of a process probes the database: its outcome
    is repeated by every later check, whatever the database looks like
    then. A missing table makes every call fail; a failed probe (no
    connection) makes every later check pass. *)
Theorem check_migrations_first_decides (p : probe) (ps : list probe) :
  check_calls mig_init (p :: ps)
  = repeat (match p with TableMissing => Err migration_error | _ => Ok tt end)
           (S (length ps)).
Proof.
  destruct p; simpl; rewrite check_calls_checked by reflexivity; reflexivity.
Qed.
